(** * The sidplaywx playlist: entry store, navigation and state tracking

    A shallow embedding of [UIElements::Playlist::Playlist]
    (src/wxApplication/UIElements/Playlist/Playlist.cpp) together with the
    part of [PlaylistTreeModelNode] that it relies on.

    Conventions of the embedding:
    - a [PlaylistTreeModelNode&] / [PlaylistTreeModelNode*] is an address
      ([ptr]); [nullptr] and an unset [wxDataViewItem] are [None];
    - the [std::vector<std::unique_ptr<PlaylistTreeModelNode>>] of the model
      owns its nodes, and every song node owns its subsong nodes, so the
      store is a list of trees; erasing a tree destroys what it owns;
    - a member function that mutates the control takes the playlist and
      returns the new one; dereferencing an address that is not in the store
      is undefined in C++ and yields [None] here;
    - the recursive traversals are not structurally recursive (they search
      the list again at every call), so they take a bound on the number of
      nested calls and answer [Unfinished] when it is exhausted. *)

From Stdlib Require Import String Ascii DecimalString.
From Stdlib Require Import ZArith Lia Bool Arith PeanoNat List Permutation.
Import ListNotations.

Set Implicit Arguments.

Local Open Scope list_scope.

(** ** Data model *)

Definition wxString := string.

Bind Scope string_scope with wxString.

(** Address of a heap-allocated node. *)
Definition ptr := nat.

Module ItemType.
Inductive t := Song | Subsong.

Definition eqb (a b : t) : bool :=
  match a, b with
  | Song, Song | Subsong, Subsong => true
  | _, _ => false
  end.
End ItemType.

Module ItemTag.
Inductive t := Normal | ShortDuration | Blacklisted.

Definition eqb (a b : t) : bool :=
  match a, b with
  | Normal, Normal | ShortDuration, ShortDuration | Blacklisted, Blacklisted => true
  | _, _ => false
  end.
End ItemTag.

Module RomRequirement.
(** Modelled from the spec: the enumeration is declared in
    PlaylistTreeModel.h, which is not part of the sources at hand; the
    source names [None] and [BasicRom], the third classification is the
    spec's. *)
Inductive t := None | BasicRom | OtherRom.

Definition eqb (a b : t) : bool :=
  match a, b with
  | None, None | BasicRom, BasicRom | OtherRom, OtherRom => true
  | _, _ => false
  end.
End RomRequirement.

Module PlaylistIconId.
Inductive t := NoIcon | DefaultSubsongIndicator | ChipIcon | SkipShort | RemoveSong.
End PlaylistIconId.

Inductive wxColour :=
| ColourString (s : string)        (* wxColour constructed from "#rrggbb" *)
| SysColourHotlight.               (* wxSystemSettings::GetColour(wxSYS_COLOUR_HOTLIGHT) *)

(** The visual-state payload of an entry. *)
Record wxDataViewItemAttr := mkAttr {
  attrColour : option wxColour;
  attrBold : bool;
  attrStrikethrough : bool
}.

Definition defaultAttr : wxDataViewItemAttr := mkAttr None false false.

Definition SetBold (b : bool) (a : wxDataViewItemAttr) : wxDataViewItemAttr :=
  mkAttr (attrColour a) b (attrStrikethrough a).

Definition SetColour (c : wxColour) (a : wxDataViewItemAttr) : wxDataViewItemAttr :=
  mkAttr (Some c) (attrBold a) (attrStrikethrough a).

Definition SetStrikethrough (b : bool) (a : wxDataViewItemAttr) : wxDataViewItemAttr :=
  mkAttr (attrColour a) (attrBold a) b.

(** The data members of one node. [self] is the address the node lives
    at (its identity); [_parent] is the non-owning back-reference. *)
Record NodeFields := mkFields {
  self : ptr;
  _parent : option ptr;
  title : wxString;
  filepath : wxString;
  defaultSubsong : Z;
  duration : Z;
  author : wxString;
  romRequirement : RomRequirement.t;
  _playable : bool;
  _tag : ItemTag.t;
  _iconId : PlaylistIconId.t;
  _attr : wxDataViewItemAttr
}.

(** A node with the subsong nodes it owns. Subsongs own nothing. *)
Record PlaylistTreeModelNode := mkNode {
  fields :> NodeFields;
  _children : list NodeFields
}.

Definition subsongNode (c : NodeFields) : PlaylistTreeModelNode := mkNode c [].

(** Modelled from the spec: the constructor of [PlaylistTreeModelNode] is
    not part of the sources at hand; a song entry is a root-level node and a
    subsong carries a back-reference to its owning song, so the [type]
    member is [Song] exactly when the parent passed to the constructor is
    null. *)
Definition type (n : NodeFields) : ItemType.t :=
  match _parent n with
  | None => ItemType.Song
  | Some _ => ItemType.Subsong
  end.

(** Modelled from the spec: [PlaylistTreeModelNode::IsPlayable] is not part
    of the sources at hand; an entry is playable iff its explicit playable
    flag is true and its tag is not Blacklisted (the ROM policy is applied
    by the caller when it computes the flag passed to [AddMainSong]). *)
Definition IsPlayable (n : NodeFields) : bool :=
  _playable n && negb (ItemTag.eqb (_tag n) ItemTag.Blacklisted).

(** Modelled from the spec: [PlaylistTreeModelNode::IsAutoPlayable] is not
    part of the sources at hand; auto-playable means playable and not tagged
    ShortDuration. *)
Definition IsAutoPlayable (n : NodeFields) : bool :=
  IsPlayable n && negb (ItemTag.eqb (_tag n) ItemTag.ShortDuration).

(** Modelled from the spec: [PlaylistTreeModelNode::GetSubsongCount] is not
    part of the sources at hand; it is the number of owned subsongs. *)
Definition GetSubsongCount (n : PlaylistTreeModelNode) : nat :=
  length (_children n).

(** Modelled from the spec: [PlaylistTreeModelNode::GetSubsong] is not part
    of the sources at hand; a subsong's identity within its song is its
    subsong index (kept in [defaultSubsong]), and the getter yields null
    when no subsong has the requested index. *)
Definition GetSubsong (n : PlaylistTreeModelNode) (subsong : Z) : option NodeFields :=
  find (fun c => Z.eqb (defaultSubsong c) subsong) (_children n).

(** Outbound notifications and hints to the wx base control. *)
Inductive Notification :=
| ItemAdded (parent : option ptr) (item : ptr)
| ItemsAdded (parent : ptr) (items : list ptr)
| ItemDeleted (parent : option ptr) (item : ptr)
| Cleared
| ItemChanged (item : ptr)
| ColumnsCountChanged
| Expand (item : option ptr)
| Collapse (item : option ptr)
| Refresh.

(** The control: the model's root entries, the active item, the option read
    from the application settings, the two columns whose visibility the
    control toggles, the next address handed out by [new], and the
    notifications sent so far. *)
Record Playlist := mkPlaylist {
  entries : list PlaylistTreeModelNode;
  _activeItem : option ptr;
  RepeatModeDefaultSubsong : bool;
  authorHidden : bool;
  placeholderLastHidden : bool;
  nextAddress : ptr;
  sent : list Notification
}.

(** The control as the constructor leaves it: the author column hidden. *)
Definition newPlaylist (preferDefault : bool) : Playlist :=
  mkPlaylist [] None preferDefault true false 1 [].

Definition withEntries (es : list PlaylistTreeModelNode) (pl : Playlist) : Playlist :=
  mkPlaylist es (_activeItem pl) (RepeatModeDefaultSubsong pl) (authorHidden pl)
             (placeholderLastHidden pl) (nextAddress pl) (sent pl).

Definition withActiveItem (a : option ptr) (pl : Playlist) : Playlist :=
  mkPlaylist (entries pl) a (RepeatModeDefaultSubsong pl) (authorHidden pl)
             (placeholderLastHidden pl) (nextAddress pl) (sent pl).

Definition withNextAddress (a : ptr) (pl : Playlist) : Playlist :=
  mkPlaylist (entries pl) (_activeItem pl) (RepeatModeDefaultSubsong pl) (authorHidden pl)
             (placeholderLastHidden pl) a (sent pl).

Definition notify (n : Notification) (pl : Playlist) : Playlist :=
  mkPlaylist (entries pl) (_activeItem pl) (RepeatModeDefaultSubsong pl) (authorHidden pl)
             (placeholderLastHidden pl) (nextAddress pl) (sent pl ++ [n]).

(** ** Iterators over the root vector *)

(** [std::find_if]: the position of the first element satisfying [p], or
    the length of the list (the [end()] iterator) when there is none. *)
Fixpoint find_if (A : Type) (p : A -> bool) (l : list A) : nat :=
  match l with
  | [] => 0
  | x :: t => if p x then 0 else S (find_if p t)
  end.

(** [vector::erase(it)] for a dereferenceable iterator. *)
Fixpoint erase (A : Type) (it : nat) (l : list A) : list A :=
  match l, it with
  | [], _ => []
  | _ :: t, 0 => t
  | x :: t, S k => x :: erase k t
  end.

(** ** The store: reaching a node through its address *)

Definition hasAddress (p : ptr) (n : NodeFields) : bool := Nat.eqb (self n) p.

(** All nodes the model owns, songs and subsongs. *)
Definition allNodes (es : list PlaylistTreeModelNode) : list NodeFields :=
  flat_map (fun n : PlaylistTreeModelNode => fields n :: _children n) es.

(** Reading through a reference: the node living at [p], with what it owns. *)
Definition deref (p : ptr) (es : list PlaylistTreeModelNode) : option PlaylistTreeModelNode :=
  match find (fun n : PlaylistTreeModelNode => hasAddress p n) es with
  | Some n => Some n
  | None => option_map subsongNode (find (hasAddress p) (flat_map _children es))
  end.

(** Writing the data members of the node living at [p]. *)
Definition modify (p : ptr) (f : NodeFields -> NodeFields)
    (es : list PlaylistTreeModelNode) : list PlaylistTreeModelNode :=
  let upd := fun x => if hasAddress p x then f x else x in
  map (fun n : PlaylistTreeModelNode => mkNode (upd (fields n)) (map upd (_children n))) es.

(** Writing the data members of every node owned by the node living at [p]. *)
Definition modifyChildren (p : ptr) (f : NodeFields -> NodeFields)
    (es : list PlaylistTreeModelNode) : list PlaylistTreeModelNode :=
  map (fun n : PlaylistTreeModelNode => if hasAddress p n then mkNode (fields n) (map f (_children n)) else n) es.

(** [AddChild] applied repeatedly to the song living at [p]. *)
Definition adopt (p : ptr) (cs : list NodeFields)
    (es : list PlaylistTreeModelNode) : list PlaylistTreeModelNode :=
  map (fun n : PlaylistTreeModelNode => if hasAddress p n then mkNode (fields n) (_children n ++ cs) else n) es.

Definition SetTag (t : ItemTag.t) (n : NodeFields) : NodeFields :=
  mkFields (self n) (_parent n) (title n) (filepath n) (defaultSubsong n) (duration n)
           (author n) (romRequirement n) (_playable n) t (_iconId n) (_attr n).

Definition SetIconId (i : PlaylistIconId.t) (n : NodeFields) : NodeFields :=
  mkFields (self n) (_parent n) (title n) (filepath n) (defaultSubsong n) (duration n)
           (author n) (romRequirement n) (_playable n) (_tag n) i (_attr n).

(** [GetItemAttr({})] followed by the setter [g]. *)
Definition onItemAttr (g : wxDataViewItemAttr -> wxDataViewItemAttr) (n : NodeFields) : NodeFields :=
  mkFields (self n) (_parent n) (title n) (filepath n) (defaultSubsong n) (duration n)
           (author n) (romRequirement n) (_playable n) (_tag n) (_iconId n) (g (_attr n)).

(** Modelled from the spec: [PlaylistTreeModelNode::ResetItemAttr] is not
    part of the sources at hand; it resets the visual-state payload. *)
Definition ResetItemAttr (n : NodeFields) : NodeFields :=
  onItemAttr (fun _ => defaultAttr) n.

(** Modelled from the spec: the constructor of [PlaylistTreeModelNode] is
    not part of the sources at hand; a new entry carries the arguments it is
    given, the tag Normal, no icon and a default visual-state payload. *)
Definition newNode (a : ptr) (parent : option ptr) (title filepath : wxString)
    (defaultSubsong duration : Z) (author : wxString)
    (romRequirement : RomRequirement.t) (playable : bool) : NodeFields :=
  mkFields a parent title filepath defaultSubsong duration author romRequirement
           playable ItemTag.Normal PlaylistIconId.NoIcon defaultAttr.

(** ** Member functions of [Playlist] *)

(** The value the function returns: hide the author column unless there
    are at least two songs and some author differs from the first one's. *)
Definition shouldHide (es : list PlaylistTreeModelNode) : bool :=
  if 1 <? length es then
    match es with
    | front :: _ => forallb (fun node : PlaylistTreeModelNode => String.eqb (author node) (author front)) es
    | [] => true
    end
  else true.

Definition RefreshAuthorColumnVisibility (pl : Playlist) : bool * Playlist :=
  let hide := shouldHide (entries pl) in
  if Bool.eqb (authorHidden pl) hide then (hide, pl)
  else
    (hide,
     mkPlaylist (entries pl) (_activeItem pl) (RepeatModeDefaultSubsong pl)
                hide (negb hide) (nextAddress pl) (sent pl ++ [ColumnsCountChanged])).

Definition AddMainSong (title filepath : wxString) (defaultSubsong duration : Z)
    (author : wxString) (romRequirement : RomRequirement.t) (playable : bool)
    (pl : Playlist) : ptr * Playlist :=
  let a := nextAddress pl in
  let node := mkNode (newNode a None title filepath defaultSubsong duration author
                              romRequirement playable) [] in
  let pl := withNextAddress (S a) (withEntries (entries pl ++ [node]) pl) in
  let pl := notify (ItemAdded None a) pl in
  (a, snd (RefreshAuthorColumnVisibility pl)).

(** Modelled from the spec: [Strings::PlaylistTree::SUBSONG] is declared in
    Config/UIStrings.h, which is not part of the sources at hand; the spec
    gives the derived title as "<parent title>: Subsong <n>". *)
Definition SUBSONG : wxString := "Subsong"%string.

(** [++cnt] on an [int]: 32-bit two's complement. *)
Definition intIncr (cnt : Z) : Z := ((cnt + 1 + 2 ^ 31) mod 2 ^ 32 - 2 ^ 31)%Z.

(** [wxString::Format("  %s: %s %i", title, SUBSONG, cnt)] *)
Definition subsongTitle (parentTitle : wxString) (cnt : Z) : wxString :=
  ("  " ++ parentTitle ++ ": " ++ SUBSONG ++ " " ++ NilZero.string_of_int (Z.to_int cnt))%string.

(** The body of the range-for of [AddSubsongs]: [cnt] is the counter before
    the iteration, [a] the address the next [new] returns. *)
Fixpoint AddSubsongs_loop (durations : list Z) (cnt : Z) (parent : NodeFields)
    (a : ptr) : list NodeFields :=
  match durations with
  | [] => []
  | duration :: rest =>
      let cnt := intIncr cnt in
      let newChildNode :=
        newNode a (Some (self parent)) (subsongTitle (title parent) cnt) (filepath parent)
                cnt duration ""%string (romRequirement parent) (IsPlayable parent) in
      let newChildNode :=
        if Z.eqb (defaultSubsong parent) cnt
        then SetIconId PlaylistIconId.DefaultSubsongIndicator newChildNode
        else newChildNode in
      newChildNode :: AddSubsongs_loop rest cnt parent (S a)
  end.

(** [parent] is a song of the store: subsongs own nothing in this model. *)
Definition AddSubsongs (durations : list Z) (parent : ptr) (pl : Playlist) : option Playlist :=
  if length durations =? 0 then Some pl
  else
    match find (fun n : PlaylistTreeModelNode => hasAddress parent n) (entries pl) with
    | None => None
    | Some node =>
        let created := AddSubsongs_loop durations 0 node (nextAddress pl) in
        let pl := withNextAddress (nextAddress pl + length durations)
                    (withEntries (adopt parent created (entries pl)) pl) in
        Some (notify (ItemsAdded parent (map self created)) pl)
    end.

Definition GetActiveSong (pl : Playlist) : option ptr := _activeItem pl.

Definition Remove (item : ptr) (pl : Playlist) : option Playlist :=
  match deref item (entries pl) with
  | None => None
  | Some node =>
      let parent := _parent node in
      let unset :=
        match GetActiveSong pl with
        | None => Some pl
        | Some a =>
            match deref a (entries pl) with
            | None => None
            | Some activeSong =>
                if String.eqb (filepath activeSong) (filepath node)
                then Some (withActiveItem None pl)
                else Some pl
            end
        end in
      match unset with
      | None => None
      | Some pl =>
          let it := find_if (fun qItemNode : PlaylistTreeModelNode => hasAddress item qItemNode)
                            (entries pl) in
          let pl := if it =? length (entries pl) then pl
                    else withEntries (erase it (entries pl)) pl in
          let pl := notify (ItemDeleted parent item) pl in
          Some (snd (RefreshAuthorColumnVisibility pl))
      end
  end.

Definition Clear (pl : Playlist) : Playlist :=
  let pl := withActiveItem None pl in
  let pl := withEntries [] pl in
  let pl := notify Cleared pl in
  snd (RefreshAuthorColumnVisibility pl).

(** Sequencing of steps that may dereference a dangling address. *)
Definition andThen (A B : Type) (o : option A) (k : A -> option B) : option B :=
  match o with
  | Some a => k a
  | None => None
  end.

Notation "x <- o ;; k" := (andThen o (fun x => k))
  (at level 61, o at next level, right associativity).

Definition GetEffectiveInitialSubsong (pl : Playlist) (mainSongItem : PlaylistTreeModelNode)
    : option PlaylistTreeModelNode :=
  let node := mainSongItem in
  if GetSubsongCount node =? 0 then
    if IsAutoPlayable node then Some node else None
  else
    let preferredStartSubsong :=
      if RepeatModeDefaultSubsong pl then defaultSubsong node else 1%Z in
    let preferredStartSubsongItem := GetSubsong node preferredStartSubsong in
    if match preferredStartSubsongItem with
       | Some item => IsAutoPlayable item
       | None => false
       end
    then option_map subsongNode preferredStartSubsongItem
    else option_map subsongNode (find IsAutoPlayable (_children node)).

Definition GetSong (pl : Playlist) (path : wxString) : option PlaylistTreeModelNode :=
  find (fun songItem : PlaylistTreeModelNode => String.eqb (filepath songItem) path) (entries pl).

(** What a traversal answers: the pointer it returns, or nothing when the
    allowed number of nested calls did not suffice. *)
Inductive Outcome (A : Type) :=
| Returned (a : A)
| Unfinished.

Arguments Unfinished {A}.

(** [calls] bounds the number of recursive calls below this one. *)
Fixpoint GetNextSong (calls : nat) (pl : Playlist) (fromSong : PlaylistTreeModelNode)
    : Outcome (option PlaylistTreeModelNode) :=
  let itCurrent :=
    find_if (fun cSongNode : PlaylistTreeModelNode =>
               String.eqb (filepath cSongNode) (filepath fromSong)) (entries pl) in
  if itCurrent =? length (entries pl) then Returned None
  else
    let itNext := S itCurrent in
    if itNext =? length (entries pl) then Returned None
    else
      match nth_error (entries pl) itNext with
      | None => Returned None
      | Some nextSong =>
          if IsAutoPlayable nextSong then Returned (GetEffectiveInitialSubsong pl nextSong)
          else
            match calls with
            | 0 => Unfinished
            | S calls => GetNextSong calls pl nextSong
            end
      end.

Fixpoint GetPrevSong (calls : nat) (pl : Playlist) (fromSong : PlaylistTreeModelNode)
    : Outcome (option PlaylistTreeModelNode) :=
  let itCurrent :=
    find_if (fun cSongNode : PlaylistTreeModelNode =>
               String.eqb (filepath cSongNode) (filepath fromSong)) (entries pl) in
  if (itCurrent =? length (entries pl)) || (itCurrent =? 0) then Returned None
  else
    match nth_error (entries pl) (pred itCurrent) with
    | None => Returned None
    | Some prevSong =>
        if IsAutoPlayable prevSong then Returned (GetEffectiveInitialSubsong pl prevSong)
        else
          match calls with
          | 0 => Unfinished
          | S calls => GetPrevSong calls pl prevSong
          end
    end.

Definition TrySetActiveSong (node : ptr) (autoexpand : bool) (pl : Playlist)
    : option (bool * Playlist) :=
  n <- deref node (entries pl) ;;
  if negb (IsPlayable n) then Some (false, pl)
  else
    pl <- match _activeItem pl with
          | None => Some pl
          | Some a =>
              oldNode <- deref a (entries pl) ;;
              let pl := if autoexpand && ItemType.eqb (type oldNode) ItemType.Subsong
                        then notify (Collapse (_parent oldNode)) pl
                        else pl in
              let pl := withEntries (modify a ResetItemAttr (entries pl)) pl in
              match _parent oldNode with
              | None => Some pl
              | Some parent =>
                  _ <- deref parent (entries pl) ;;
                  Some (withEntries (modify parent ResetItemAttr (entries pl)) pl)
              end
          end ;;
    let pl := withActiveItem (Some node) pl in
    let pl := withEntries (modify node (onItemAttr (SetBold true)) (entries pl)) pl in
    pl <- (if ItemType.eqb (type n) ItemType.Subsong then
             parent <- _parent n ;;
             _ <- deref parent (entries pl) ;;
             let highlight := fun attr => SetColour SysColourHotlight (SetBold true attr) in
             Some (withEntries (modify parent (onItemAttr highlight) (entries pl)) pl)
           else Some pl) ;;
    let pl := if autoexpand && ItemType.eqb (type n) ItemType.Subsong
              then notify (Expand (_parent n)) pl
              else pl in
    Some (true, notify Refresh pl).

Definition IsEmpty (pl : Playlist) : bool :=
  match entries pl with
  | [] => true
  | _ :: _ => false
  end.

Definition SetItemTag (node : ptr) (tag : ItemTag.t) (force : bool) (pl : Playlist)
    : option Playlist :=
  n <- deref node (entries pl) ;;
  if negb force && negb (IsPlayable n) then Some pl
  else
    let es := modify node (SetTag tag) (entries pl) in
    let es := if force then modify node ResetItemAttr es else es in
    es <- match tag with
          | ItemTag.Normal =>
              n <- deref node es ;;
              itemIsDefaultSubsong <-
                (if ItemType.eqb (type n) ItemType.Subsong then
                   parent <- _parent n ;;
                   p <- deref parent es ;;
                   Some (Z.eqb (defaultSubsong n) (defaultSubsong p))
                 else Some false) ;;
              let nodeIconId := if itemIsDefaultSubsong : bool
                                then PlaylistIconId.DefaultSubsongIndicator
                                else PlaylistIconId.NoIcon in
              let es := modify node (SetIconId nodeIconId) es in
              if negb (RomRequirement.eqb (romRequirement n) RomRequirement.None) then
                let es := if ItemType.eqb (type n) ItemType.Song
                          then modify node (SetIconId PlaylistIconId.ChipIcon) es
                          else es in
                if negb (IsPlayable n) then
                  let col := if RomRequirement.eqb (romRequirement n) RomRequirement.BasicRom
                             then ColourString "#054a80" else ColourString "#8a5454" in
                  let style := onItemAttr (fun attr => SetStrikethrough true (SetColour col attr)) in
                  Some (modifyChildren node style (modify node style es))
                else Some es
              else Some es
          | ItemTag.ShortDuration => Some (modify node (SetIconId PlaylistIconId.SkipShort) es)
          | ItemTag.Blacklisted => Some (modify node (SetIconId PlaylistIconId.RemoveSong) es)
          end ;;
    Some (notify (ItemChanged node) (withEntries es pl)).

(** ** Notions used to state the properties *)

(** The predicate the song traversals search with. *)
Definition samePath (x : PlaylistTreeModelNode) : PlaylistTreeModelNode -> bool :=
  fun cSongNode => String.eqb (filepath cSongNode) (filepath x).

(** The first auto-playable song of a run of songs, resolved to the entry
    playback starts with. *)
Definition firstAutoPlayable (pl : Playlist) (run : list PlaylistTreeModelNode)
    : option PlaylistTreeModelNode :=
  match find (fun n : PlaylistTreeModelNode => IsAutoPlayable n) run with
  | Some song => GetEffectiveInitialSubsong pl song
  | None => None
  end.

(** The option is owned by the application settings and may change between
    two calls. *)
Definition withOption (b : bool) (pl : Playlist) : Playlist :=
  mkPlaylist (entries pl) (_activeItem pl) b (authorHidden pl)
             (placeholderLastHidden pl) (nextAddress pl) (sent pl).

(** One call of a public member function (or a change of the option by
    its owner). A call whose argument does not refer to a node of the store
    has no defined result and is no step. *)
Inductive step : Playlist -> Playlist -> Prop :=
| step_option (pl : Playlist) (b : bool) :
    step pl (withOption b pl)
| step_AddMainSong (pl : Playlist) (t f : wxString) (d dur : Z) (a : wxString)
    (rom : RomRequirement.t) (playable : bool) :
    step pl (snd (AddMainSong t f d dur a rom playable pl))
| step_AddSubsongs (pl pl' : Playlist) (durations : list Z) (parent : ptr) :
    AddSubsongs durations parent pl = Some pl' -> step pl pl'
| step_Remove (pl pl' : Playlist) (item : ptr) :
    Remove item pl = Some pl' -> step pl pl'
| step_Clear (pl : Playlist) :
    step pl (Clear pl)
| step_TrySetActiveSong (pl pl' : Playlist) (node : ptr) (autoexpand r : bool) :
    TrySetActiveSong node autoexpand pl = Some (r, pl') -> step pl pl'
| step_SetItemTag (pl pl' : Playlist) (node : ptr) (tag : ItemTag.t) (force : bool) :
    SetItemTag node tag force pl = Some pl' -> step pl pl'.

(** The states the control gets into, starting as the constructor leaves it. *)
Inductive reachable : Playlist -> Prop :=
| reach_new (b : bool) : reachable (newPlaylist b)
| reach_step (pl pl' : Playlist) : reachable pl -> step pl pl' -> reachable pl'.

(** What identifies a node for good: where it lives and the file it plays. *)
Definition identity (n : NodeFields) : ptr * wxString := (self n, filepath n).

(** The store reduced to the identities of its nodes. *)
Definition skeleton (es : list PlaylistTreeModelNode) : list ((ptr * wxString) * list (ptr * wxString)) :=
  map (fun n : PlaylistTreeModelNode => (identity n, map identity (_children n))) es.

Definition addresses (es : list PlaylistTreeModelNode) : list ptr :=
  map self (allNodes es).

(** Every subsong plays the file of the song that owns it. *)
Definition ownsItsPath (n : PlaylistTreeModelNode) : Prop :=
  Forall (fun c => filepath c = filepath n) (_children n).

(** The active entry of the control. *)
Definition isActive (pl : Playlist) (n : NodeFields) : Prop :=
  GetActiveSong pl = Some (self n).

(** The active item refers to an entry of the store, and to one only. *)
Definition activeItemValid (pl : Playlist) : Prop :=
  (forall a, GetActiveSong pl = Some a -> exists n, deref a (entries pl) = Some n) /\
  (forall n m, In n (allNodes (entries pl)) -> In m (allNodes (entries pl)) ->
               isActive pl n -> isActive pl m -> n = m).

Record wellFormed (pl : Playlist) : Prop := mkWellFormed {
  wf_paths : Forall ownsItsPath (entries pl);
  wf_fresh : Forall (fun a => a < nextAddress pl) (addresses (entries pl));
  wf_unique : NoDup (addresses (entries pl));
  wf_active : forall a, GetActiveSong pl = Some a -> In a (addresses (entries pl))
}.

(** A write that leaves the identity of the node alone. *)
Definition keepsIdentity (f : NodeFields -> NodeFields) : Prop :=
  forall n, identity (f n) = identity n.

(** ** Scenarios *)

(** A control holding the single song "Tune", which lives at address 1. *)
Definition tuneAlone : Playlist :=
  snd (AddMainSong "Tune" "tune.sid" 1 0 "Hubbard" RomRequirement.None true
         (newPlaylist false)).

(** The same file added a second time, this time flagged unplayable. *)
Definition sameFileTwice : Playlist :=
  snd (AddMainSong "Tune again" "tune.sid" 1 0 "Hubbard" RomRequirement.None false
         tuneAlone).

(** The control after a call that is defined in the scenario at hand. *)
Definition after (call : option Playlist) : Playlist :=
  match call with
  | Some pl => pl
  | None => newPlaylist false
  end.

(** "Tune" with three subsongs, which live at addresses 2, 3 and 4. *)
Definition tuneWithSubsongs : Playlist :=
  after (AddSubsongs [100; 200; 300]%Z 1 tuneAlone).

(** The second subsong of "Tune" made active. *)
Definition tuneSecondSubsongActive : Playlist :=
  after (option_map snd (TrySetActiveSong 3 false tuneWithSubsongs)).

(** A second song, by another author, which lives at address 2. *)
Definition tuneAndOther : Playlist :=
  snd (AddMainSong "Other" "other.sid" 0 0 "Galway" RomRequirement.None true tuneAlone).

(** Two songs by different authors, the first of them active. *)
Definition twoAuthors : Playlist :=
  after (option_map snd (TrySetActiveSong 1 false tuneAndOther)).

(** ** The resolution rule in the words of the specification *)

(** The subsong indices of a song are 1, 2, ... in the order of its child
    collection. *)
Definition contiguousIndices (song : PlaylistTreeModelNode) : Prop :=
  map defaultSubsong (_children song) = map Z.of_nat (seq 1 (length (_children song))).

(** Step 3 of the rule: the indices [index], [index + 1], ... are tried in
    turn, and the first subsong found auto-playable is the answer. *)
Fixpoint scanInIndexOrder (song : PlaylistTreeModelNode) (index : Z) (remaining : nat)
    : option NodeFields :=
  match remaining with
  | 0 => None
  | S remaining =>
      match GetSubsong song index with
      | Some s =>
          if IsAutoPlayable s then Some s
          else scanInIndexOrder song (index + 1) remaining
      | None => scanInIndexOrder song (index + 1) remaining
      end
  end.

(** Steps 1 to 3 of the rule. *)
Definition effectiveInitialSubsongRule (preferDefault : bool) (song : PlaylistTreeModelNode)
    : option PlaylistTreeModelNode :=
  match _children song with
  | [] => if IsAutoPlayable song then Some song else None
  | _ :: _ =>
      let preferred := if preferDefault then defaultSubsong song else 1%Z in
      let scan := scanInIndexOrder song 1 (length (_children song)) in
      match GetSubsong song preferred with
      | Some s => if IsAutoPlayable s then Some (subsongNode s) else option_map subsongNode scan
      | None => option_map subsongNode scan
      end
  end.

(** A song with three subsongs, the first of them tagged as too short. *)
Definition threeSubsongs (default : Z) : PlaylistTreeModelNode :=
  let song := newNode 1 None "Tune" "tune.sid" default 0 "Hubbard" RomRequirement.None true in
  match AddSubsongs_loop [100; 200; 300]%Z 0 song 2 with
  | first :: others =>
      mkNode song (SetIconId PlaylistIconId.SkipShort (SetTag ItemTag.ShortDuration first)
                     :: others)
  | [] => mkNode song []
  end.

(** Songs A (playable), B (not playable) and C (playable), added in that
    order; they live at addresses 1, 2 and 3. *)
Definition songsABC : Playlist :=
  snd (AddMainSong "C" "c.sid" 1 0 "Hubbard" RomRequirement.None true
    (snd (AddMainSong "B" "b.sid" 1 0 "Hubbard" RomRequirement.BasicRom false
      (snd (AddMainSong "A" "a.sid" 1 0 "Hubbard" RomRequirement.None true
        (newPlaylist false)))))).

(** The title a subsong would carry if it were "<parent title>: Subsong <n>". *)
Definition titleWithoutIndent (parentTitle : wxString) (n : Z) : wxString :=
  (parentTitle ++ ": Subsong " ++ NilZero.string_of_int (Z.to_int n))%string.

(** "Tune" blacklisted by a forced tag. *)
Definition tuneBlacklisted : Playlist :=
  after (SetItemTag 1 ItemTag.Blacklisted true tuneAlone).

(** What every created subsong takes from its parent. *)
Definition createdFrom (parent : NodeFields) (c : NodeFields) : Prop :=
  title c = ("  " ++ title parent ++ ": Subsong "
                  ++ NilZero.string_of_int (Z.to_int (defaultSubsong c)))%string /\
  filepath c = filepath parent /\
  romRequirement c = romRequirement parent /\
  _playable c = IsPlayable parent /\
  _parent c = Some (self parent) /\
  author c = ""%string /\
  _tag c = ItemTag.Normal /\
  _iconId c = (if Z.eqb (defaultSubsong c) (defaultSubsong parent)
               then PlaylistIconId.DefaultSubsongIndicator
               else PlaylistIconId.NoIcon).

(** ** The remaining queries of [Playlist] *)

Definition GetSongs (pl : Playlist) : list PlaylistTreeModelNode := entries pl.

(** [Playlist::GetSubsong(filepath, subsong)]; the name [GetSubsong] is
    taken by the member of the node it delegates to. *)
Definition Playlist_GetSubsong (pl : Playlist) (path : wxString) (subsong : Z)
    : option PlaylistTreeModelNode :=
  match GetSong pl path with
  | None => None
  | Some mainSongNode =>
      if Z.eqb subsong 0 then GetEffectiveInitialSubsong pl mainSongNode
      else option_map subsongNode (GetSubsong mainSongNode subsong)
  end.

(** The forms without argument start from the active entry; the active
    item is dereferenced, which is undefined ([None]) when it dangles. *)
Definition GetNextSong_active (calls : nat) (pl : Playlist)
    : option (Outcome (option PlaylistTreeModelNode)) :=
  match GetActiveSong pl with
  | None => Some (Returned None)
  | Some a =>
      activeSong <- deref a (entries pl) ;;
      Some (GetNextSong calls pl activeSong)
  end.

Definition GetPrevSong_active (calls : nat) (pl : Playlist)
    : option (Outcome (option PlaylistTreeModelNode)) :=
  match GetActiveSong pl with
  | None => Some (Returned None)
  | Some a =>
      activeSong <- deref a (entries pl) ;;
      Some (GetPrevSong calls pl activeSong)
  end.

(** [GetNextSubsong(fromSubsong)]. The subsong count is assigned to an
    [int]; the index handed on is below it, so adding one does not
    overflow. The result is undefined ([None]) when the subsong fetched is
    null, since [IsAutoPlayable] is called through the null pointer. *)
Fixpoint GetNextSubsong (calls : nat) (pl : Playlist) (fromSubsong : PlaylistTreeModelNode)
    : option (Outcome (option PlaylistTreeModelNode)) :=
  match GetSong pl (filepath fromSubsong) with
  | None => Some (Returned None)
  | Some mainSong =>
      let max := Z.of_nat (GetSubsongCount mainSong) in
      if (max <=? defaultSubsong fromSubsong)%Z then Some (Returned None)
      else
        match Playlist_GetSubsong pl (filepath fromSubsong)
                                  (defaultSubsong fromSubsong + 1) with
        | None => None
        | Some nextSubsong =>
            if IsAutoPlayable nextSubsong then Some (Returned (Some nextSubsong))
            else
              match calls with
              | 0 => Some Unfinished
              | S calls => GetNextSubsong calls pl nextSubsong
              end
        end
  end.

Definition GetNextSubsong_active (calls : nat) (pl : Playlist)
    : option (Outcome (option PlaylistTreeModelNode)) :=
  match GetActiveSong pl with
  | None => Some (Returned None)
  | Some a =>
      activeSong <- deref a (entries pl) ;;
      GetNextSubsong calls pl activeSong
  end.

(** [GetPrevSubsong(fromSubsong)]: the index handed on is above 1, so
    subtracting one does not overflow. *)
Fixpoint GetPrevSubsong (calls : nat) (pl : Playlist) (fromSubsong : PlaylistTreeModelNode)
    : option (Outcome (option PlaylistTreeModelNode)) :=
  if (defaultSubsong fromSubsong <=? 1)%Z then Some (Returned None)
  else
    match Playlist_GetSubsong pl (filepath fromSubsong)
                              (defaultSubsong fromSubsong - 1) with
    | None => None
    | Some prevSubsong =>
        if IsAutoPlayable prevSubsong then Some (Returned (Some prevSubsong))
        else
          match calls with
          | 0 => Some Unfinished
          | S calls => GetPrevSubsong calls pl prevSubsong
          end
    end.

Definition GetPrevSubsong_active (calls : nat) (pl : Playlist)
    : option (Outcome (option PlaylistTreeModelNode)) :=
  match GetActiveSong pl with
  | None => Some (Returned None)
  | Some a =>
      activeSong <- deref a (entries pl) ;;
      GetPrevSubsong calls pl activeSong
  end.

(** ** The scroll wheel *)

Inductive wxMouseWheelAxis := wxMOUSE_WHEEL_VERTICAL | wxMOUSE_WHEEL_HORIZONTAL.

(** What the handler reads from the [wxMouseEvent]. *)
Record wxMouseEvent := mkMouseEvent {
  GetWheelAxis : wxMouseWheelAxis;
  GetWheelRotation : Z;
  GetWheelDelta : Z;
  GetLinesPerAction : Z
}.

(** What the handler does with the event. *)
Inductive WheelHandling :=
| Skip                       (* evt.Skip(): left to the default handler *)
| DoScroll (x y : Z).        (* DoScroll(x, y) *)

Definition inInt (z : Z) : bool := ((- 2 ^ 31 <=? z) && (z <? 2 ^ 31))%Z.

(** An [int] operation whose result does not fit is undefined. *)
Definition asInt (z : Z) : option Z := if inInt z then Some z else None.

(** [_OverrideScrollWheel(evt)], given the two scroll positions the
    control reports. [/] on [int] truncates towards zero; a zero divisor
    is undefined. *)
Definition _OverrideScrollWheel (evt : wxMouseEvent) (scrollPosH scrollPosV : Z)
    : option WheelHandling :=
  match GetWheelAxis evt with
  | wxMOUSE_WHEEL_HORIZONTAL => Some Skip
  | wxMOUSE_WHEEL_VERTICAL =>
      if Z.eqb (GetWheelDelta evt) 0 then None
      else
        notches <- asInt (Z.quot (GetWheelRotation evt) (GetWheelDelta evt)) ;;
        lines <- asInt (notches * GetLinesPerAction evt) ;;
        target <- asInt (scrollPosV - lines) ;;
        Some (DoScroll scrollPosH (Z.max 0 target))
  end.

(** ** Notions used to state the further properties *)

(** The songs, by address, in the order of the root vector. *)
Definition songOrder (pl : Playlist) : list ptr :=
  map (fun n : PlaylistTreeModelNode => self n) (entries pl).

(** The state of the two columns the control toggles agrees with the songs. *)
Definition columnsInSync (pl : Playlist) : Prop :=
  authorHidden pl = shouldHide (entries pl) /\
  placeholderLastHidden pl = negb (authorHidden pl).

(** A write that leaves the address of the node alone. *)
Definition keepsSelf (f : NodeFields -> NodeFields) : Prop :=
  forall x, self (f x) = self x.

(** The icon [SetItemTag] resolves for the tag Normal. *)
Definition normalIcon (n : NodeFields) (parentDefault : Z) : PlaylistIconId.t :=
  match type n with
  | ItemType.Song =>
      if RomRequirement.eqb (romRequirement n) RomRequirement.None
      then PlaylistIconId.NoIcon else PlaylistIconId.ChipIcon
  | ItemType.Subsong =>
      if Z.eqb (defaultSubsong n) parentDefault
      then PlaylistIconId.DefaultSubsongIndicator else PlaylistIconId.NoIcon
  end.

(** "Tune" with its second subsong tagged as too short. *)
Definition tuneSecondSubsongShort : Playlist :=
  after (SetItemTag 3 ItemTag.ShortDuration false tuneWithSubsongs).

(** The authors of the songs, in the order of the root vector. *)
Definition authors (es : list PlaylistTreeModelNode) : list wxString :=
  map (fun n : PlaylistTreeModelNode => author n) es.

(** A write that leaves the author of the node alone. *)
Definition keepsAuthor (f : NodeFields -> NodeFields) : Prop :=
  forall x, author (f x) = author x.

(** The node living at [p] is in the store and satisfies [P]. *)
Definition nodeAt (P : NodeFields -> Prop) (p : ptr) (es : list PlaylistTreeModelNode) : Prop :=
  exists n', deref p es = Some n' /\ P n'.

(** The colour [SetItemTag] gives an entry that cannot be played for want
    of a ROM. *)
Definition unplayableColour (n : NodeFields) : wxColour :=
  if RomRequirement.eqb (romRequirement n) RomRequirement.BasicRom
  then ColourString "#054a80" else ColourString "#8a5454".

(** Songs A, B (playable flag clear) and C, where C owns two subsongs, which
    live at addresses 4 and 5, and has been tagged as too short: C is
    playable, but not auto-playable, and its subsongs are auto-playable. *)
Definition songsABCShort : Playlist :=
  after (SetItemTag 3 ItemTag.ShortDuration false
    (after (AddSubsongs [100; 200]%Z 3 songsABC))).

(** Songs A, B (playable flag clear) and C, where C plays the file of A. *)
Definition songsAgainA : Playlist :=
  snd (AddMainSong "C" "a.sid" 1 0 "Hubbard" RomRequirement.None true
    (snd (AddMainSong "B" "b.sid" 1 0 "Hubbard" RomRequirement.BasicRom false
      (snd (AddMainSong "A" "a.sid" 1 0 "Hubbard" RomRequirement.None true
        (newPlaylist false)))))).

(** * Properties *)

(** ** Iterators *)

Section FindIf.
Variable A : Type.
Variable p : A -> bool.

Lemma find_if_le (l : list A) : find_if p l <= length l.
Proof.
  induction l as [|x t IH]; simpl; [lia|].
  destruct (p x); simpl; lia.
Qed.

Lemma find_if_found (l : list A) :
  find_if p l < length l ->
  exists x, nth_error l (find_if p l) = Some x /\ p x = true.
Proof.
  induction l as [|x t IH]; simpl; [lia|].
  destruct (p x) eqn:Hx; simpl; intros H.
  - exists x; auto.
  - apply IH; lia.
Qed.

Lemma find_if_first (l : list A) (i : nat) (x : A) :
  nth_error l i = Some x -> p x = true -> find_if p l <= i.
Proof.
  revert i; induction l as [|y t IH]; intros [|i]; simpl; try discriminate.
  - intros [= ->] ->; lia.
  - intros Hn Hx. destruct (p y); [lia|].
    specialize (IH i Hn Hx); lia.
Qed.

Lemma find_if_none (l : list A) :
  (forall x, In x l -> p x = false) -> find_if p l = length l.
Proof.
  induction l as [|y t IH]; simpl; intros H; [reflexivity|].
  rewrite (H y) by auto. f_equal. apply IH. auto.
Qed.

Lemma find_if_app_here (pre post : list A) (x : A) :
  (forall y, In y pre -> p y = false) -> p x = true ->
  find_if p (pre ++ x :: post) = length pre.
Proof.
  induction pre as [|y t IH]; simpl; intros Hpre Hx.
  - now rewrite Hx.
  - rewrite (Hpre y) by auto. f_equal. apply IH; auto.
Qed.

Lemma erase_app_here (pre post : list A) (x : A) :
  erase (length pre) (pre ++ x :: post) = pre ++ post.
Proof.
  induction pre as [|y t IH]; simpl; [reflexivity|]. now rewrite IH.
Qed.
End FindIf.

Lemma samePath_refl (x : PlaylistTreeModelNode) : samePath x x = true.
Proof. apply String.eqb_refl. Qed.

(** With pairwise distinct file paths, a song is found where it is stored. *)
Lemma find_if_distinct_paths (pre post : list PlaylistTreeModelNode) (x : PlaylistTreeModelNode) :
  NoDup (map (fun n : PlaylistTreeModelNode => filepath n) (pre ++ x :: post)) ->
  find_if (samePath x) (pre ++ x :: post) = length pre.
Proof.
  intros Hnd. apply find_if_app_here; [|apply samePath_refl].
  intros y Hy. unfold samePath. apply String.eqb_neq. intros Heq.
  rewrite map_app in Hnd. simpl in Hnd.
  apply NoDup_remove_2 in Hnd. apply Hnd.
  apply in_or_app. left. rewrite <- Heq.
  now apply (in_map (fun n : PlaylistTreeModelNode => filepath n)).
Qed.

(** ** Traversal over the songs *)

Lemma GetNextSong_unfold (calls : nat) (pl : Playlist) (fromSong : PlaylistTreeModelNode) :
  GetNextSong calls pl fromSong =
  let itCurrent := find_if (samePath fromSong) (entries pl) in
  if itCurrent =? length (entries pl) then Returned None
  else if S itCurrent =? length (entries pl) then Returned None
  else
    match nth_error (entries pl) (S itCurrent) with
    | None => Returned None
    | Some nextSong =>
        if IsAutoPlayable nextSong then Returned (GetEffectiveInitialSubsong pl nextSong)
        else
          match calls with
          | 0 => Unfinished
          | S calls => GetNextSong calls pl nextSong
          end
    end.
Proof. destruct calls; reflexivity. Qed.

Lemma GetPrevSong_unfold (calls : nat) (pl : Playlist) (fromSong : PlaylistTreeModelNode) :
  GetPrevSong calls pl fromSong =
  let itCurrent := find_if (samePath fromSong) (entries pl) in
  if (itCurrent =? length (entries pl)) || (itCurrent =? 0) then Returned None
  else
    match nth_error (entries pl) (pred itCurrent) with
    | None => Returned None
    | Some prevSong =>
        if IsAutoPlayable prevSong then Returned (GetEffectiveInitialSubsong pl prevSong)
        else
          match calls with
          | 0 => Unfinished
          | S calls => GetPrevSong calls pl prevSong
          end
    end.
Proof. destruct calls; reflexivity. Qed.

Section Traversal.
Variable pl : Playlist.

(** Searching backward always returns: each nested call starts from a
    strictly earlier position, whatever the file paths are. *)
Lemma GetPrevSong_returns (calls : nat) (fromSong : PlaylistTreeModelNode) :
  find_if (samePath fromSong) (entries pl) <= calls ->
  exists r, GetPrevSong calls pl fromSong = Returned r.
Proof.
  revert fromSong. induction calls as [|calls IH]; intros fromSong Hle;
    rewrite GetPrevSong_unfold; cbv zeta;
    set (it := find_if (samePath fromSong) (entries pl)) in *.
  - replace it with 0 by lia. rewrite Bool.orb_true_r. eauto.
  - destruct ((it =? length (entries pl)) || (it =? 0)) eqn:Hb; [eauto|].
    apply Bool.orb_false_iff in Hb. destruct Hb as [_ Hz].
    apply Nat.eqb_neq in Hz.
    destruct (nth_error (entries pl) (pred it)) as [prevSong|] eqn:Hn; [|eauto].
    destruct (IsAutoPlayable prevSong); [eauto|].
    apply IH.
    pose proof (find_if_first (samePath prevSong) _ _ Hn (samePath_refl prevSong)).
    lia.
Qed.

Hypothesis distinct :
  NoDup (map (fun n : PlaylistTreeModelNode => filepath n) (entries pl)).

Lemma GetNextSong_distinct_paths (post pre : list PlaylistTreeModelNode)
    (fromSong : PlaylistTreeModelNode) (calls : nat) :
  entries pl = pre ++ fromSong :: post ->
  length post <= calls ->
  GetNextSong calls pl fromSong = Returned (firstAutoPlayable pl post).
Proof.
  revert pre fromSong calls.
  induction post as [|nextSong post IH]; intros pre fromSong calls Hes Hcalls;
    rewrite GetNextSong_unfold; cbv zeta;
    assert (Hit : find_if (samePath fromSong) (entries pl) = length pre)
      by (rewrite Hes; apply find_if_distinct_paths; rewrite <- Hes; exact distinct);
    rewrite Hit.
  - assert (Hlen : length (entries pl) = S (length pre))
      by (rewrite Hes, length_app; simpl; lia).
    rewrite Hlen.
    replace (length pre =? S (length pre)) with false by (symmetry; apply Nat.eqb_neq; lia).
    rewrite Nat.eqb_refl. reflexivity.
  - assert (Hnth : nth_error (entries pl) (S (length pre)) = Some nextSong).
    { rewrite Hes. rewrite nth_error_app2 by lia.
      replace (S (length pre) - length pre) with 1 by lia. reflexivity. }
    assert (Hlen : length (entries pl) = length pre + S (S (length post)))
      by (rewrite Hes, length_app; reflexivity).
    replace (length pre =? length (entries pl)) with false
      by (symmetry; apply Nat.eqb_neq; lia).
    replace (S (length pre) =? length (entries pl)) with false
      by (symmetry; apply Nat.eqb_neq; lia).
    rewrite Hnth. unfold firstAutoPlayable. simpl find.
    destruct (IsAutoPlayable nextSong) eqn:Hauto; [reflexivity|].
    destruct calls as [|calls]; [simpl in Hcalls; lia|].
    apply (IH (pre ++ [fromSong])).
    + rewrite Hes, <- app_assoc. reflexivity.
    + simpl in Hcalls. lia.
Qed.

Lemma GetPrevSong_distinct_paths (pre post : list PlaylistTreeModelNode)
    (fromSong : PlaylistTreeModelNode) (calls : nat) :
  entries pl = pre ++ fromSong :: post ->
  length pre <= calls ->
  GetPrevSong calls pl fromSong = Returned (firstAutoPlayable pl (rev pre)).
Proof.
  revert post fromSong calls.
  induction pre as [|prevSong pre IH] using rev_ind; intros post fromSong calls Hes Hcalls;
    rewrite GetPrevSong_unfold; cbv zeta.
  - rewrite Hes, (@find_if_distinct_paths []) by (rewrite <- Hes; exact distinct).
    simpl length. rewrite Nat.eqb_refl, Bool.orb_true_r. reflexivity.
  - assert (Hit : find_if (samePath fromSong) (entries pl) = S (length pre)).
    { rewrite Hes, find_if_distinct_paths by (rewrite <- Hes; exact distinct).
      rewrite length_app. simpl. lia. }
    assert (Hnth : nth_error (entries pl) (length pre) = Some prevSong).
    { rewrite Hes, <- app_assoc. rewrite nth_error_app2 by lia.
      rewrite Nat.sub_diag. reflexivity. }
    assert (Hlen : S (length pre) < length (entries pl)).
    { rewrite Hes. rewrite !length_app. simpl. lia. }
    rewrite Hit.
    replace (S (length pre) =? length (entries pl)) with false
      by (symmetry; apply Nat.eqb_neq; lia).
    simpl. rewrite Hnth.
    rewrite rev_app_distr. unfold firstAutoPlayable. simpl find.
    destruct (IsAutoPlayable prevSong) eqn:Hauto; [reflexivity|].
    rewrite length_app in Hcalls. simpl in Hcalls.
    destruct calls as [|calls]; [lia|].
    apply (IH (fromSong :: post)).
    + rewrite Hes, <- app_assoc. reflexivity.
    + lia.
Qed.
End Traversal.

(** ** The store *)

Lemma find_if_split (A : Type) (p : A -> bool) (l : list A) :
  find_if p l < length l ->
  exists pre x post,
    l = pre ++ x :: post /\ length pre = find_if p l /\ p x = true /\
    (forall y, In y pre -> p y = false).
Proof.
  induction l as [|y t IH]; simpl; [lia|].
  destruct (p y) eqn:Hy; intros Hlt.
  - exists [], y, t. simpl. repeat split; auto. intros ? [].
  - destruct IH as (pre & x & post & -> & Hlen & Hx & Hpre); [lia|].
    exists (y :: pre), x, post. simpl. repeat split; auto.
    intros z [<-|Hz]; auto.
Qed.

Lemma find_hasAddress_first (pre post : list PlaylistTreeModelNode)
    (x : PlaylistTreeModelNode) (p : ptr) :
  (forall y : PlaylistTreeModelNode, In y pre -> hasAddress p y = false) ->
  hasAddress p x = true ->
  find (fun n : PlaylistTreeModelNode => hasAddress p n) (pre ++ x :: post) = Some x.
Proof.
  induction pre as [|y t IH]; simpl; intros Hpre Hx.
  - now rewrite Hx.
  - rewrite (Hpre y) by auto. apply IH; auto.
Qed.

Lemma in_allNodes (x : NodeFields) (es : list PlaylistTreeModelNode) :
  In x (allNodes es) <->
  In x (map fields es) \/ In x (flat_map _children es).
Proof.
  unfold allNodes. induction es as [|n t IH]; simpl; [tauto|].
  rewrite in_app_iff, in_app_iff, IH. tauto.
Qed.

Lemma allNodes_app (es es' : list PlaylistTreeModelNode) :
  allNodes (es ++ es') = allNodes es ++ allNodes es'.
Proof. apply flat_map_app. Qed.

Lemma addresses_app (es es' : list PlaylistTreeModelNode) :
  addresses (es ++ es') = addresses es ++ addresses es'.
Proof. unfold addresses. now rewrite allNodes_app, map_app. Qed.

Lemma deref_In (p : ptr) (es : list PlaylistTreeModelNode) (n : PlaylistTreeModelNode) :
  deref p es = Some n -> In (fields n) (allNodes es) /\ self n = p.
Proof.
  unfold deref.
  destruct (find (fun n : PlaylistTreeModelNode => hasAddress p n) es) as [r|] eqn:Hr.
  - intros [= <-]. apply find_some in Hr. destruct Hr as [Hin Ha].
    split; [|now apply Nat.eqb_eq].
    apply in_allNodes. left. now apply in_map.
  - destruct (find (hasAddress p) (flat_map _children es)) as [c|] eqn:Hc; [|discriminate].
    intros [= <-]. apply find_some in Hc. destruct Hc as [Hin Ha].
    split; [|now apply Nat.eqb_eq].
    apply in_allNodes. now right.
Qed.

Lemma deref_address (p : ptr) (es : list PlaylistTreeModelNode) (n : PlaylistTreeModelNode) :
  deref p es = Some n -> In p (addresses es).
Proof.
  intros H. apply deref_In in H. destruct H as [Hin <-].
  unfold addresses. now apply in_map.
Qed.

(** Every address of the store can be dereferenced. *)
Lemma address_deref (p : ptr) (es : list PlaylistTreeModelNode) :
  In p (addresses es) -> exists n, deref p es = Some n.
Proof.
  unfold addresses. intros Hin. apply in_map_iff in Hin.
  destruct Hin as (x & Hx & Hin). apply in_allNodes in Hin.
  unfold deref.
  destruct (find (fun n : PlaylistTreeModelNode => hasAddress p n) es) as [r|] eqn:Hr; [eauto|].
  destruct (find (hasAddress p) (flat_map _children es)) as [c|] eqn:Hc; [simpl; eauto|].
  exfalso. destruct Hin as [Hin|Hin].
  - apply in_map_iff in Hin. destruct Hin as (r & <- & Hin).
    pose proof (find_none _ _ Hr r Hin) as Hf. simpl in Hf.
    unfold hasAddress in Hf. rewrite Hx, Nat.eqb_refl in Hf. discriminate.
  - pose proof (find_none _ _ Hc x Hin) as Hf.
    unfold hasAddress in Hf. rewrite Hx, Nat.eqb_refl in Hf. discriminate.
Qed.

Lemma addresses_skeleton (es : list PlaylistTreeModelNode) :
  addresses es = flat_map (fun s => fst (fst s) :: map fst (snd s)) (skeleton es).
Proof.
  unfold addresses, allNodes, skeleton.
  induction es as [|n t IH]; simpl; [reflexivity|].
  rewrite map_app, IH, map_map. reflexivity.
Qed.

Lemma ownsItsPath_skeleton (es : list PlaylistTreeModelNode) :
  Forall ownsItsPath es <->
  Forall (fun s => Forall (fun c => snd c = snd (fst s)) (snd s)) (skeleton es).
Proof.
  unfold skeleton, ownsItsPath. rewrite Forall_map.
  split; apply Forall_impl; intros n; simpl; rewrite Forall_map; auto.
Qed.

Lemma keepsIdentity_SetTag (t : ItemTag.t) : keepsIdentity (SetTag t).
Proof. intros n. reflexivity. Qed.

Lemma keepsIdentity_SetIconId (i : PlaylistIconId.t) : keepsIdentity (SetIconId i).
Proof. intros n. reflexivity. Qed.

Lemma keepsIdentity_onItemAttr (g : wxDataViewItemAttr -> wxDataViewItemAttr) :
  keepsIdentity (onItemAttr g).
Proof. intros n. reflexivity. Qed.

Lemma keepsIdentity_ResetItemAttr : keepsIdentity ResetItemAttr.
Proof. intros n. reflexivity. Qed.

Create HintDb store.

#[local] Hint Resolve keepsIdentity_SetTag keepsIdentity_SetIconId
  keepsIdentity_onItemAttr keepsIdentity_ResetItemAttr : store.

Lemma skeleton_modify (p : ptr) (f : NodeFields -> NodeFields)
    (es : list PlaylistTreeModelNode) :
  keepsIdentity f -> skeleton (modify p f es) = skeleton es.
Proof.
  intros Hf. unfold skeleton, modify. rewrite map_map.
  apply map_ext. intros n. simpl. f_equal.
  - destruct (hasAddress p n); auto.
  - rewrite map_map. apply map_ext. intros c. destruct (hasAddress p c); auto.
Qed.

Lemma skeleton_modifyChildren (p : ptr) (f : NodeFields -> NodeFields)
    (es : list PlaylistTreeModelNode) :
  keepsIdentity f -> skeleton (modifyChildren p f es) = skeleton es.
Proof.
  intros Hf. unfold skeleton, modifyChildren. rewrite map_map.
  apply map_ext. intros n. destruct (hasAddress p n); simpl; [|reflexivity].
  f_equal. rewrite map_map. apply map_ext. intros c. apply Hf.
Qed.

Lemma Refresh_entries (pl : Playlist) :
  entries (snd (RefreshAuthorColumnVisibility pl)) = entries pl.
Proof.
  unfold RefreshAuthorColumnVisibility.
  destruct (Bool.eqb (authorHidden pl) (shouldHide (entries pl))); reflexivity.
Qed.

Lemma Refresh_activeItem (pl : Playlist) :
  _activeItem (snd (RefreshAuthorColumnVisibility pl)) = _activeItem pl.
Proof.
  unfold RefreshAuthorColumnVisibility.
  destruct (Bool.eqb (authorHidden pl) (shouldHide (entries pl))); reflexivity.
Qed.

Lemma Refresh_nextAddress (pl : Playlist) :
  nextAddress (snd (RefreshAuthorColumnVisibility pl)) = nextAddress pl.
Proof.
  unfold RefreshAuthorColumnVisibility.
  destruct (Bool.eqb (authorHidden pl) (shouldHide (entries pl))); reflexivity.
Qed.

(** After the refresh the author column is hidden exactly when it should. *)
Lemma Refresh_authorHidden (pl : Playlist) :
  authorHidden (snd (RefreshAuthorColumnVisibility pl)) = shouldHide (entries pl).
Proof.
  unfold RefreshAuthorColumnVisibility.
  destruct (Bool.eqb (authorHidden pl) (shouldHide (entries pl))) eqn:Hb; simpl.
  - now apply Bool.eqb_prop.
  - reflexivity.
Qed.

(** ** Well-formedness of the reachable states *)

(** Reading a member of a control that was just written. *)
Ltac members :=
  cbn [entries _activeItem nextAddress RepeatModeDefaultSubsong authorHidden
       placeholderLastHidden sent notify withNextAddress withEntries
       withActiveItem withOption GetActiveSong newPlaylist] in *.

Lemma NoDup_map_injective (A B : Type) (f : A -> B) (l : list A) (x y : A) :
  NoDup (map f l) -> In x l -> In y l -> f x = f y -> x = y.
Proof.
  induction l as [|z t IH]; simpl; [tauto|].
  intros Hnd [<-|Hx] [<-|Hy] Heq; auto.
  - exfalso. apply NoDup_cons_iff in Hnd. apply (proj1 Hnd).
    rewrite Heq. now apply in_map.
  - exfalso. apply NoDup_cons_iff in Hnd. apply (proj1 Hnd).
    rewrite <- Heq. now apply in_map.
  - apply IH; auto. now apply NoDup_cons_iff in Hnd.
Qed.

Lemma NoDup_drop_middle (A : Type) (l1 l2 l3 : list A) :
  NoDup (l1 ++ l2 ++ l3) -> NoDup (l1 ++ l3).
Proof.
  induction l2 as [|x t IH]; simpl; auto.
  intros H. apply IH. eapply NoDup_remove_1; eauto.
Qed.

Lemma NoDup_append_fresh (l : list nat) (a n : nat) :
  NoDup l -> Forall (fun x => x < a) l -> NoDup (l ++ seq a n).
Proof.
  intros Hnd Hlt. induction l as [|x t IH]; simpl.
  - apply seq_NoDup.
  - apply NoDup_cons_iff in Hnd. destruct Hnd as [Hx Hnd].
    apply Forall_cons_iff in Hlt. destruct Hlt as [Hxa Hlt].
    constructor; auto.
    rewrite in_app_iff. intros [Hin|Hin]; [tauto|].
    apply in_seq in Hin. lia.
Qed.

Lemma wellFormed_same_skeleton (pl pl' : Playlist) :
  wellFormed pl ->
  skeleton (entries pl') = skeleton (entries pl) ->
  nextAddress pl' = nextAddress pl ->
  (forall a, GetActiveSong pl' = Some a -> In a (addresses (entries pl))) ->
  wellFormed pl'.
Proof.
  intros [Hp Hf Hu Ha] Hsk Hnext Hact.
  assert (Haddr : addresses (entries pl') = addresses (entries pl))
    by (now rewrite !addresses_skeleton, Hsk).
  constructor.
  - apply ownsItsPath_skeleton. rewrite Hsk. now apply ownsItsPath_skeleton.
  - now rewrite Haddr, Hnext.
  - now rewrite Haddr.
  - intros a Hsome. rewrite Haddr. auto.
Qed.

Lemma wellFormed_Refresh (pl : Playlist) :
  wellFormed pl -> wellFormed (snd (RefreshAuthorColumnVisibility pl)).
Proof.
  intros Hwf. apply (wellFormed_same_skeleton (pl:=pl)); [exact Hwf|..].
  - now rewrite Refresh_entries.
  - apply Refresh_nextAddress.
  - unfold GetActiveSong. rewrite Refresh_activeItem. apply Hwf.
Qed.

Lemma wellFormed_new (b : bool) : wellFormed (newPlaylist b).
Proof.
  constructor; simpl; try constructor. intros a [=].
Qed.

Lemma wellFormed_withOption (b : bool) (pl : Playlist) :
  wellFormed pl -> wellFormed (withOption b pl).
Proof.
  intros Hwf. apply (wellFormed_same_skeleton (pl:=pl)); auto. apply Hwf.
Qed.

Lemma wellFormed_AddMainSong (t f : wxString) (d dur : Z) (a : wxString)
    (rom : RomRequirement.t) (playable : bool) (pl : Playlist) :
  wellFormed pl -> wellFormed (snd (AddMainSong t f d dur a rom playable pl)).
Proof.
  intros [Hp Hf Hu Ha]. unfold AddMainSong. cbv zeta. cbn [snd].
  apply wellFormed_Refresh. constructor; members.
  - apply Forall_app. split; auto. repeat constructor.
  - rewrite addresses_app. apply Forall_app. split.
    + eapply Forall_impl; [|exact Hf]. cbn. intros; lia.
    + repeat constructor.
  - rewrite addresses_app. apply (NoDup_append_fresh 1 Hu Hf).
  - intros x Hx. rewrite addresses_app, in_app_iff. left. auto.
Qed.

Lemma wellFormed_Clear (pl : Playlist) : wellFormed (Clear pl).
Proof.
  unfold Clear. cbv zeta. apply wellFormed_Refresh.
  constructor; members; try constructor. intros a [=].
Qed.

Lemma AddSubsongs_loop_self (durations : list Z) (cnt : Z) (parent : NodeFields) (a : ptr) :
  map self (AddSubsongs_loop durations cnt parent a) = seq a (length durations).
Proof.
  revert cnt a. induction durations as [|d rest IH]; intros cnt a; simpl; [reflexivity|].
  rewrite IH. f_equal. now destruct (Z.eqb (defaultSubsong parent) (intIncr cnt)).
Qed.

Lemma AddSubsongs_loop_filepath (durations : list Z) (cnt : Z) (parent : NodeFields) (a : ptr) :
  Forall (fun c => filepath c = filepath parent) (AddSubsongs_loop durations cnt parent a).
Proof.
  revert cnt a. induction durations as [|d rest IH]; intros cnt a; simpl; constructor; auto.
  now destruct (Z.eqb (defaultSubsong parent) (intIncr cnt)).
Qed.

Lemma adopt_absent (p : ptr) (cs : list NodeFields) (es : list PlaylistTreeModelNode) :
  (forall n : PlaylistTreeModelNode, In n es -> hasAddress p n = false) ->
  adopt p cs es = es.
Proof.
  induction es as [|n t IH]; simpl; intros H; [reflexivity|].
  rewrite (H n) by auto. f_equal. apply IH. auto.
Qed.

(** No other root lives at the address of the first root. *)
Lemma unique_root (n : PlaylistTreeModelNode) (t : list PlaylistTreeModelNode) :
  NoDup (addresses (n :: t)) ->
  forall y : PlaylistTreeModelNode, In y t -> hasAddress (self n) y = false.
Proof.
  intros Hnd y Hy. apply Nat.eqb_neq. intros Heq.
  change (n :: t) with ([n] ++ t) in Hnd. rewrite addresses_app in Hnd.
  unfold addresses at 1 in Hnd. simpl in Hnd.
  apply NoDup_cons_iff in Hnd. apply (proj1 Hnd).
  rewrite <- Heq. rewrite app_nil_r. apply in_or_app. right.
  unfold addresses. apply in_map. apply in_allNodes. left. now apply in_map.
Qed.

Lemma NoDup_addresses_tail (n : PlaylistTreeModelNode) (t : list PlaylistTreeModelNode) :
  NoDup (addresses (n :: t)) -> NoDup (addresses t).
Proof.
  change (n :: t) with ([n] ++ t). rewrite addresses_app.
  intros H. now apply NoDup_app_remove_l in H.
Qed.

Lemma adopt_allNodes (p : ptr) (cs : list NodeFields) (es : list PlaylistTreeModelNode)
    (node : PlaylistTreeModelNode) :
  NoDup (addresses es) ->
  find (fun n : PlaylistTreeModelNode => hasAddress p n) es = Some node ->
  Permutation (allNodes (adopt p cs es)) (allNodes es ++ cs).
Proof.
  induction es as [|n t IH]; simpl; [discriminate|].
  intros Hnd Hfind. destruct (hasAddress p n) eqn:Hp.
  - apply Nat.eqb_eq in Hp. subst p.
    rewrite adopt_absent by (now apply unique_root).
    unfold allNodes. simpl. apply perm_skip.
    rewrite <- !app_assoc. apply Permutation_app_head. apply Permutation_app_comm.
  - unfold allNodes in *. simpl. apply perm_skip.
    rewrite <- app_assoc. apply Permutation_app_head.
    apply IH; auto. now apply NoDup_addresses_tail in Hnd.
Qed.

Lemma adopt_ownsItsPath (p : ptr) (cs : list NodeFields) (es : list PlaylistTreeModelNode)
    (node : PlaylistTreeModelNode) :
  Forall ownsItsPath es ->
  NoDup (addresses es) ->
  find (fun n : PlaylistTreeModelNode => hasAddress p n) es = Some node ->
  Forall (fun c => filepath c = filepath node) cs ->
  Forall ownsItsPath (adopt p cs es).
Proof.
  induction es as [|n t IH]; simpl; [discriminate|].
  intros Hown Hnd Hfind Hcs.
  apply Forall_cons_iff in Hown. destruct Hown as [Hn Ht].
  destruct (hasAddress p n) eqn:Hp.
  - injection Hfind as <-. apply Nat.eqb_eq in Hp. subst p.
    rewrite adopt_absent by (now apply unique_root).
    constructor; auto. unfold ownsItsPath in *. simpl. apply Forall_app. auto.
  - constructor; auto. apply IH; auto. now apply NoDup_addresses_tail in Hnd.
Qed.

Lemma wellFormed_AddSubsongs (durations : list Z) (parent : ptr) (pl pl' : Playlist) :
  wellFormed pl -> AddSubsongs durations parent pl = Some pl' -> wellFormed pl'.
Proof.
  intros Hwf. unfold AddSubsongs.
  destruct (length durations =? 0); [now intros [= <-]|].
  destruct (find (fun n : PlaylistTreeModelNode => hasAddress parent n) (entries pl))
    as [node|] eqn:Hfind; [|discriminate].
  intros [= <-]. destruct Hwf as [Hp Hf Hu Ha].
  set (created := AddSubsongs_loop durations 0 node (nextAddress pl)).
  assert (Hperm : Permutation (addresses (adopt parent created (entries pl)))
                              (addresses (entries pl) ++ seq (nextAddress pl) (length durations))).
  { unfold addresses. rewrite <- (AddSubsongs_loop_self durations 0 node (nextAddress pl)).
    fold created. rewrite <- map_app. apply Permutation_map.
    now apply adopt_allNodes with (node := node). }
  constructor; members.
  - apply adopt_ownsItsPath with (node := node); auto.
    apply AddSubsongs_loop_filepath.
  - eapply Permutation_Forall; [apply Permutation_sym, Hperm|].
    apply Forall_app. split.
    + eapply Forall_impl; [|exact Hf]. cbn. intros; lia.
    + apply Forall_forall. intros x Hx. apply in_seq in Hx. lia.
  - eapply Permutation_NoDup; [apply Permutation_sym, Hperm|].
    now apply NoDup_append_fresh.
  - intros a Hact. eapply Permutation_in; [apply Permutation_sym, Hperm|].
    apply in_or_app. left. auto.
Qed.

(** What a defined call of [Remove] does to the members of the control. *)
Lemma Remove_inv (item : ptr) (pl pl' : Playlist) :
  Remove item pl = Some pl' ->
  exists node,
    deref item (entries pl) = Some node /\
    nextAddress pl' = nextAddress pl /\
    entries pl' =
      (let it := find_if (fun q : PlaylistTreeModelNode => hasAddress item q) (entries pl) in
       if it =? length (entries pl) then entries pl else erase it (entries pl)) /\
    match GetActiveSong pl with
    | None => GetActiveSong pl' = None
    | Some a =>
        exists activeSong,
          deref a (entries pl) = Some activeSong /\
          GetActiveSong pl' =
            if String.eqb (filepath activeSong) (filepath node) then None else Some a
    end.
Proof.
  unfold Remove.
  destruct (deref item (entries pl)) as [node|] eqn:Hitem; [|discriminate].
  intros H. exists node. split; [reflexivity|].
  destruct (GetActiveSong pl) as [a|] eqn:Hact.
  - destruct (deref a (entries pl)) as [activeSong|] eqn:Ha; [|discriminate].
    destruct (String.eqb (filepath activeSong) (filepath node)) eqn:Hpath;
      injection H as <-;
      rewrite Refresh_nextAddress; unfold GetActiveSong in *;
      rewrite Refresh_entries, Refresh_activeItem; members;
      (split; [now destruct (_ =? _)|]);
      (split; [now destruct (_ =? _)|]);
      exists activeSong; rewrite Hpath;
      (split; [reflexivity|]); destruct (_ =? _); members; auto.
  - injection H as <-.
    rewrite Refresh_nextAddress; unfold GetActiveSong in *;
      rewrite Refresh_entries, Refresh_activeItem; members.
    repeat split; destruct (_ =? _); members; auto.
Qed.

(** A node of the tree rooted at [x] plays the file of [x]. *)
Lemma tree_path (x : PlaylistTreeModelNode) (y : NodeFields) :
  ownsItsPath x -> In y (allNodes [x]) -> filepath y = filepath x.
Proof.
  unfold allNodes. simpl. rewrite app_nil_r. intros Hown [<-|Hin]; [reflexivity|].
  unfold ownsItsPath in Hown. rewrite Forall_forall in Hown. auto.
Qed.

Lemma wellFormed_Remove (item : ptr) (pl pl' : Playlist) :
  wellFormed pl -> Remove item pl = Some pl' -> wellFormed pl'.
Proof.
  intros Hwf Hrem. pose proof Hwf as [Hp Hf Hu Ha].
  apply Remove_inv in Hrem.
  destruct Hrem as (node & Hitem & Hnext & Hes & Hact). cbv zeta in Hes.
  assert (Hkeeps : forall a, GetActiveSong pl' = Some a ->
            exists activeSong, GetActiveSong pl = Some a /\
              deref a (entries pl) = Some activeSong /\
              String.eqb (filepath activeSong) (filepath node) = false).
  { intros a Ha'. destruct (GetActiveSong pl) as [a0|]; [|congruence].
    destruct Hact as (activeSong & Hd & Hif). exists activeSong.
    destruct (String.eqb (filepath activeSong) (filepath node)); [congruence|].
    rewrite Hif in Ha'. injection Ha' as <-. auto. }
  set (it := find_if (fun q : PlaylistTreeModelNode => hasAddress item q) (entries pl)) in *.
  destruct (it =? length (entries pl)) eqn:Hend.
  - apply (wellFormed_same_skeleton (pl:=pl)); auto; [now rewrite Hes|].
    intros a Ha'. destruct (Hkeeps a Ha') as (? & Hsome & _). auto.
  - apply Nat.eqb_neq in Hend.
    destruct (@find_if_split _ (fun q : PlaylistTreeModelNode => hasAddress item q) (entries pl))
      as (pre & x & post & Hsplit & Hlen & Hx & Hpre).
    { pose proof (find_if_le (fun q : PlaylistTreeModelNode => hasAddress item q) (entries pl)).
      fold it in H. lia. }
    fold it in Hlen. rewrite <- Hlen, Hsplit, erase_app_here in Hes.
    assert (Hnode : node = x).
    { unfold deref in Hitem. rewrite Hsplit, find_hasAddress_first in Hitem by auto.
      congruence. }
    subst node. rewrite Hsplit in *.
    change (x :: post) with ([x] ++ post) in *.
    rewrite !addresses_app in *.
    constructor; rewrite Hes, ?addresses_app.
    + apply Forall_app in Hp. destruct Hp as [Hp1 Hp2].
      apply Forall_app in Hp2. apply Forall_app. tauto.
    + rewrite Hnext. apply Forall_app in Hf. destruct Hf as [Hf1 Hf2].
      apply Forall_app in Hf2. apply Forall_app. tauto.
    + eapply NoDup_drop_middle; eauto.
    + intros a Ha'. destruct (Hkeeps a Ha') as (activeSong & Hsome & Hd & Hpath).
      apply String.eqb_neq in Hpath.
      pose proof (deref_In _ _ Hd) as [Hin Hself].
      rewrite !allNodes_app in Hin.
      apply in_app_iff in Hin. destruct Hin as [Hin|Hin].
      { apply in_or_app. left. unfold addresses. rewrite <- Hself. now apply in_map. }
      apply in_app_iff in Hin. destruct Hin as [Hin|Hin].
      { exfalso. apply Hpath. apply tree_path; auto.
        apply Forall_app in Hp. destruct Hp as [_ Hp2].
        apply Forall_app in Hp2. destruct Hp2 as [Hp2 _].
        now apply Forall_cons_iff in Hp2. }
      { apply in_or_app. right. unfold addresses. rewrite <- Hself. now apply in_map. }
Qed.

(** Case analysis along the control flow of a member function: every
    dereference and every test met on the way is split, and the
    intermediate controls are replaced by what they were bound to. *)
Ltac along :=
  repeat match goal with
         | H : None = Some _ |- _ => discriminate H
         | H : Some _ = Some _ |- _ => injection H as H; try subst
         | H : context [match ?o with Some _ => _ | None => _ end] |- _ =>
             destruct o eqn:?
         | H : context [if ?b then _ else _] |- _ => destruct b eqn:?
         | H : context [match ?t with ItemTag.Normal => _ | _ => _ end] |- _ =>
             destruct t
         end;
  repeat match goal with
         | |- context [if ?b then _ else _] => destruct b
         end.

Lemma TrySetActiveSong_inv (node : ptr) (autoexpand r : bool) (pl pl' : Playlist) :
  TrySetActiveSong node autoexpand pl = Some (r, pl') ->
  skeleton (entries pl') = skeleton (entries pl) /\
  nextAddress pl' = nextAddress pl /\
  ((r = false /\ pl' = pl) \/
   (r = true /\ GetActiveSong pl' = Some node /\ In node (addresses (entries pl)))).
Proof.
  unfold TrySetActiveSong, andThen. intros H.
  destruct (deref node (entries pl)) as [n|] eqn:Hnode; [|discriminate].
  apply deref_address in Hnode.
  destruct (negb (IsPlayable n)).
  { injection H as <- <-. auto. }
  along; members; rewrite ?skeleton_modify by auto with store; auto 6.
Qed.

Lemma SetItemTag_inv (node : ptr) (tag : ItemTag.t) (force : bool) (pl pl' : Playlist) :
  SetItemTag node tag force pl = Some pl' ->
  skeleton (entries pl') = skeleton (entries pl) /\
  nextAddress pl' = nextAddress pl /\
  GetActiveSong pl' = GetActiveSong pl.
Proof.
  unfold SetItemTag, andThen. intros H.
  destruct (deref node (entries pl)) as [n|] eqn:Hnode; [|discriminate].
  destruct (negb force && negb (IsPlayable n)).
  { injection H as <-. auto. }
  along; members;
    rewrite ?skeleton_modifyChildren, ?skeleton_modify by auto with store; auto.
Qed.

Lemma wellFormed_TrySetActiveSong (node : ptr) (autoexpand r : bool) (pl pl' : Playlist) :
  wellFormed pl -> TrySetActiveSong node autoexpand pl = Some (r, pl') -> wellFormed pl'.
Proof.
  intros Hwf H. apply TrySetActiveSong_inv in H.
  destruct H as (Hsk & Hnext & [[_ ->]|(_ & Hact & Hin)]); auto.
  apply (wellFormed_same_skeleton (pl:=pl)); auto.
  intros a Ha. rewrite Hact in Ha. now injection Ha as <-.
Qed.

Lemma wellFormed_SetItemTag (node : ptr) (tag : ItemTag.t) (force : bool) (pl pl' : Playlist) :
  wellFormed pl -> SetItemTag node tag force pl = Some pl' -> wellFormed pl'.
Proof.
  intros Hwf H. apply SetItemTag_inv in H. destruct H as (Hsk & Hnext & Hact).
  apply (wellFormed_same_skeleton (pl:=pl)); auto.
  rewrite Hact. apply Hwf.
Qed.

(** Every call keeps the control well formed. *)
Lemma step_wellFormed (pl pl' : Playlist) : wellFormed pl -> step pl pl' -> wellFormed pl'.
Proof.
  intros Hwf Hstep. destruct Hstep.
  - now apply wellFormed_withOption.
  - now apply wellFormed_AddMainSong.
  - eapply wellFormed_AddSubsongs; eauto.
  - eapply wellFormed_Remove; eauto.
  - apply wellFormed_Clear.
  - eapply wellFormed_TrySetActiveSong; eauto.
  - eapply wellFormed_SetItemTag; eauto.
Qed.

Lemma reachable_wellFormed (pl : Playlist) : reachable pl -> wellFormed pl.
Proof.
  induction 1; [apply wellFormed_new|eapply step_wellFormed; eauto].
Qed.

Lemma wellFormed_activeItemValid (pl : Playlist) : wellFormed pl -> activeItemValid pl.
Proof.
  intros [_ _ Hu Ha]. split.
  - intros a Hact. apply address_deref. auto.
  - unfold isActive. intros n m Hn Hm Han Ham.
    apply (NoDup_map_injective self (allNodes (entries pl))); auto.
    congruence.
Qed.

(** ** The scenarios are reachable *)

Lemma reachable_tuneAlone : reachable tuneAlone.
Proof. eapply reach_step; [apply (reach_new false)|apply step_AddMainSong]. Qed.

Lemma reachable_sameFileTwice : reachable sameFileTwice.
Proof. eapply reach_step; [apply reachable_tuneAlone|apply step_AddMainSong]. Qed.

Lemma reachable_tuneWithSubsongs : reachable tuneWithSubsongs.
Proof.
  eapply reach_step; [apply reachable_tuneAlone|].
  apply (@step_AddSubsongs _ _ [100; 200; 300]%Z 1). reflexivity.
Qed.

Lemma reachable_tuneSecondSubsongActive : reachable tuneSecondSubsongActive.
Proof.
  eapply reach_step; [apply reachable_tuneWithSubsongs|].
  apply (@step_TrySetActiveSong _ _ 3 false true). reflexivity.
Qed.

Lemma reachable_twoAuthors : reachable twoAuthors.
Proof.
  apply (@reach_step tuneAndOther).
  - eapply reach_step; [apply reachable_tuneAlone|apply step_AddMainSong].
  - apply (@step_TrySetActiveSong _ _ 1 false true). reflexivity.
Qed.

Lemma reachable_songsABC : reachable songsABC.
Proof.
  do 3 (eapply reach_step; [|apply step_AddMainSong]). apply (reach_new false).
Qed.

Lemma reachable_songsABCShort : reachable songsABCShort.
Proof.
  eapply reach_step;
    [eapply reach_step; [apply reachable_songsABC|]|].
  - apply (@step_AddSubsongs _ _ [100; 200]%Z 3). reflexivity.
  - apply (@step_SetItemTag _ _ 3 ItemTag.ShortDuration false). reflexivity.
Qed.

Lemma reachable_songsAgainA : reachable songsAgainA.
Proof.
  do 3 (eapply reach_step; [|apply step_AddMainSong]). apply (reach_new false).
Qed.

(** * The claims *)

(** ** Termination of the song traversal *)

(** C1 (the code departs from the claim). Adding the same file twice, the
    second time as unplayable, is a reachable state; there [GetNextSong]
    started from either song never returns, whatever number of nested calls
    it is allowed: the search by file path finds the first of the two songs
    again, and the unplayable song after it is handed to the next call. *)
Theorem GetNextSong_same_file_twice_never_returns :
  reachable sameFileTwice /\
  length (entries sameFileTwice) = 2 /\
  forall (calls : nat) (fromSong : PlaylistTreeModelNode),
    In fromSong (entries sameFileTwice) ->
    GetNextSong calls sameFileTwice fromSong = Unfinished.
Proof.
  split; [apply reachable_sameFileTwice|split; [reflexivity|]].
  induction calls as [|calls IH]; intros fromSong Hin;
    rewrite GetNextSong_unfold;
    destruct Hin as [<-|[<-|[]]]; cbv zeta;
    change (find_if _ _) with 0; cbn -[GetNextSong];
    try reflexivity; apply IH; right; left; reflexivity.
Qed.

(** ** Removal *)

(** The search of [Remove] runs over the songs only. *)
Lemma Remove_not_a_song (item : ptr) (pl pl' : Playlist) :
  Remove item pl = Some pl' ->
  (forall r : PlaylistTreeModelNode, In r (entries pl) -> hasAddress item r = false) ->
  entries pl' = entries pl.
Proof.
  intros Hrem Hroots. apply Remove_inv in Hrem.
  destruct Hrem as (node & _ & _ & Hes & _). cbv zeta in Hes.
  rewrite find_if_none in Hes by exact Hroots.
  now rewrite Nat.eqb_refl in Hes.
Qed.

(** Removing a song takes it, and with it the subsongs it owns, out of the
    root vector; the other songs keep their order. *)
Lemma Remove_song (item : ptr) (pl pl' : Playlist)
    (pre post : list PlaylistTreeModelNode) (song : PlaylistTreeModelNode) :
  Remove item pl = Some pl' ->
  entries pl = pre ++ song :: post ->
  hasAddress item song = true ->
  (forall r : PlaylistTreeModelNode, In r pre -> hasAddress item r = false) ->
  entries pl' = pre ++ post.
Proof.
  intros Hrem Hsplit Hsong Hpre. apply Remove_inv in Hrem.
  destruct Hrem as (node & _ & _ & Hes & _). cbv zeta in Hes.
  rewrite Hsplit in Hes.
  rewrite (find_if_app_here (fun q : PlaylistTreeModelNode => hasAddress item q)) in Hes by auto.
  rewrite erase_app_here, length_app in Hes. simpl in Hes.
  replace (length pre =? length pre + S (length post)) with false in Hes
    by (symmetry; apply Nat.eqb_neq; lia).
  exact Hes.
Qed.

(** C2 (the code departs from the claim). "Tune" is given three subsongs,
    living at addresses 2, 3 and 4, and the first of them is removed: the
    call is defined, and afterwards the song still owns the three subsongs,
    the removed one included. *)
Theorem Remove_subsong_keeps_it :
  AddSubsongs [100; 200; 300]%Z 1 tuneAlone = Some tuneWithSubsongs /\
  option_map (fun n => map self (_children n)) (deref 1 (entries tuneWithSubsongs))
    = Some [2; 3; 4] /\
  option_map (fun n : PlaylistTreeModelNode => _parent n) (deref 2 (entries tuneWithSubsongs))
    = Some (Some 1) /\
  exists pl',
    Remove 2 tuneWithSubsongs = Some pl' /\
    entries pl' = entries tuneWithSubsongs /\
    option_map GetSubsongCount (deref 1 (entries pl')) = Some 3 /\
    option_map (fun n => map self (_children n)) (deref 1 (entries pl')) = Some [2; 3; 4].
Proof.
  repeat split. eexists. repeat split.
Qed.

(** ** Refusals *)

(** C5. [TrySetActiveSong] on an entry that is not playable answers false
    and hands back the control as it was: the active item, every tag, every
    visual-state payload, and nothing is sent to the base control. *)
Theorem TrySetActiveSong_not_playable (node : ptr) (autoexpand : bool) (pl : Playlist)
    (n : PlaylistTreeModelNode) :
  deref node (entries pl) = Some n ->
  IsPlayable n = false ->
  TrySetActiveSong node autoexpand pl = Some (false, pl).
Proof.
  intros Hnode Hplayable. unfold TrySetActiveSong, andThen.
  now rewrite Hnode, Hplayable.
Qed.

(** C8. [SetItemTag] without [force] on an entry that is not playable
    hands back the control as it was, whatever the tag: the entry's tag,
    icon and visual-state payload are untouched and nothing is sent. *)
Theorem SetItemTag_not_playable_unforced (node : ptr) (tag : ItemTag.t) (pl : Playlist)
    (n : PlaylistTreeModelNode) :
  deref node (entries pl) = Some n ->
  IsPlayable n = false ->
  SetItemTag node tag false pl = Some pl.
Proof.
  intros Hnode Hplayable. unfold SetItemTag, andThen.
  now rewrite Hnode, Hplayable.
Qed.

Lemma TrySetActiveSong_not_playable_witness :
  (exists n, deref 2 (entries sameFileTwice) = Some n /\ IsPlayable n = false) /\
  TrySetActiveSong 2 true sameFileTwice = Some (false, sameFileTwice).
Proof.
  split.
  - eexists. split; reflexivity.
  - eapply TrySetActiveSong_not_playable; reflexivity.
Defined.

Lemma SetItemTag_not_playable_unforced_witness :
  (exists n, deref 2 (entries sameFileTwice) = Some n /\ IsPlayable n = false) /\
  SetItemTag 2 ItemTag.Blacklisted false sameFileTwice = Some sameFileTwice.
Proof.
  split.
  - eexists. split; reflexivity.
  - eapply SetItemTag_not_playable_unforced; reflexivity.
Defined.

(** ** The active item *)

(** C10. [Remove] compares file paths, not identities: when the active
    entry plays the file of the removed entry the active item is unset,
    also when the two are different entries, and when it plays another
    file the active item stays. In a reachable state the entries of one
    song's tree (the song and its subsongs) play the same file, so removing
    any of them while any of them is active unsets the active item. *)
Theorem Remove_unsets_active_by_path (item a : ptr) (pl pl' : Playlist)
    (node activeSong : PlaylistTreeModelNode) :
  Remove item pl = Some pl' ->
  deref item (entries pl) = Some node ->
  GetActiveSong pl = Some a ->
  deref a (entries pl) = Some activeSong ->
  (filepath activeSong = filepath node -> GetActiveSong pl' = None) /\
  (filepath activeSong <> filepath node -> GetActiveSong pl' = Some a) /\
  (reachable pl ->
   forall song : PlaylistTreeModelNode,
     In song (entries pl) ->
     In (fields node) (allNodes [song]) -> In (fields activeSong) (allNodes [song]) ->
     GetActiveSong pl' = None).
Proof.
  intros Hrem Hitem Hact Ha. apply Remove_inv in Hrem.
  destruct Hrem as (node' & Hitem' & _ & _ & Hactive).
  rewrite Hitem in Hitem'. injection Hitem' as <-.
  rewrite Hact in Hactive. destruct Hactive as (activeSong' & Ha' & Hres).
  rewrite Ha in Ha'. injection Ha' as <-.
  assert (Hsame : filepath activeSong = filepath node -> GetActiveSong pl' = None).
  { intros Heq. apply String.eqb_eq in Heq. now rewrite Heq in Hres. }
  split; [exact Hsame|]. split.
  - intros Hneq. apply String.eqb_neq in Hneq. now rewrite Hneq in Hres.
  - intros Hreach song Hsong Hnode HactiveIn. apply Hsame.
    apply reachable_wellFormed in Hreach. destruct Hreach as [Hp _ _ _].
    rewrite Forall_forall in Hp. specialize (Hp song Hsong).
    rewrite (tree_path Hp Hnode), (tree_path Hp HactiveIn). reflexivity.
Qed.

(** Removing the first subsong of "Tune" while the second one is active
    unsets the active item; removing the other song while "Tune" is active
    does not. *)
Lemma Remove_unsets_active_by_path_witness :
  (TrySetActiveSong 3 false tuneWithSubsongs = Some (true, tuneSecondSubsongActive) /\
   exists pl', Remove 2 tuneSecondSubsongActive = Some pl' /\ GetActiveSong pl' = None) /\
  (GetActiveSong twoAuthors = Some 1 /\
   exists pl', Remove 2 twoAuthors = Some pl' /\ GetActiveSong pl' = Some 1).
Proof.
  repeat split; eexists; (split; [vm_compute; reflexivity|]).
  - refine (proj1 (@Remove_unsets_active_by_path 2 3 tuneSecondSubsongActive _ _ _ _ _ _ _) _);
      vm_compute; reflexivity.
  - refine (proj1 (proj2 (@Remove_unsets_active_by_path 2 1 twoAuthors _ _ _ _ _ _ _)) _);
      try (vm_compute; reflexivity). vm_compute. discriminate.
Defined.

(** C6. In every reachable state, and so after every call made there, the
    active item refers to an entry of the store and no two entries are
    active; removing the active entry unsets the active item, and so does
    clearing the control. *)
Theorem active_item_invariant (pl : Playlist) :
  reachable pl ->
  activeItemValid pl /\
  (forall pl', step pl pl' -> activeItemValid pl') /\
  (forall a pl', GetActiveSong pl = Some a -> Remove a pl = Some pl' ->
                 GetActiveSong pl' = None) /\
  GetActiveSong (Clear pl) = None.
Proof.
  intros Hreach. pose proof (reachable_wellFormed Hreach) as Hwf.
  split; [now apply wellFormed_activeItemValid|].
  split; [intros pl' Hstep; eapply wellFormed_activeItemValid, step_wellFormed; eauto|].
  split.
  - intros a pl' Hact Hrem. pose proof (Remove_inv _ _ Hrem) as (node & Hitem & _ & _ & H).
    rewrite Hact in H. destruct H as (activeSong & Ha & Hres).
    rewrite Hitem in Ha. injection Ha as <-.
    now rewrite String.eqb_refl in Hres.
  - unfold Clear, GetActiveSong. cbv zeta. now rewrite Refresh_activeItem.
Qed.

Lemma active_item_invariant_witness :
  reachable tuneSecondSubsongActive /\
  GetActiveSong tuneSecondSubsongActive = Some 3 /\
  (exists n, deref 3 (entries tuneSecondSubsongActive) = Some n) /\
  (exists pl', Remove 3 tuneSecondSubsongActive = Some pl' /\ GetActiveSong pl' = None) /\
  GetActiveSong (Clear tuneSecondSubsongActive) = None.
Proof.
  pose proof (active_item_invariant reachable_tuneSecondSubsongActive)
    as ([Hpresent _] & _ & Hremove & Hclear).
  split; [apply reachable_tuneSecondSubsongActive|].
  split; [reflexivity|].
  split; [apply Hpresent; reflexivity|].
  split; [|exact Hclear].
  eexists. split; [vm_compute; reflexivity|].
  eapply Hremove; [reflexivity|vm_compute; reflexivity].
Defined.

(** ** The author column *)

Lemma Refresh_returns (pl : Playlist) :
  fst (RefreshAuthorColumnVisibility pl) = shouldHide (entries pl).
Proof.
  unfold RefreshAuthorColumnVisibility.
  destruct (Bool.eqb (authorHidden pl) (shouldHide (entries pl))); reflexivity.
Qed.

Lemma shouldHide_true (es : list PlaylistTreeModelNode) :
  shouldHide es = true <->
  (length es < 2 \/
   forall first n : PlaylistTreeModelNode,
     hd_error es = Some first -> In n es -> author n = author first).
Proof.
  unfold shouldHide. destruct (1 <? length es) eqn:Hlen.
  - apply Nat.ltb_lt in Hlen. destruct es as [|front rest]; [simpl in Hlen; lia|].
    rewrite forallb_forall. split.
    + intros H. right. intros first n [= <-] Hin. apply String.eqb_eq. auto.
    + intros [Hlt|H]; [lia|]. intros n Hin. apply String.eqb_eq. now apply H.
  - apply Nat.ltb_ge in Hlen. split; [intros _; left; lia|reflexivity].
Qed.

(** The column is in the recomputed state right after the refresh, and a
    second refresh agrees with it. *)
Lemma refreshed_column (pl : Playlist) :
  let pl' := snd (RefreshAuthorColumnVisibility pl) in
  authorHidden pl' = fst (RefreshAuthorColumnVisibility pl').
Proof.
  cbv zeta. now rewrite Refresh_returns, Refresh_entries, Refresh_authorHidden.
Qed.

(** C9. The value [RefreshAuthorColumnVisibility] computes is true exactly
    when there are fewer than two songs or every song has the author of the
    first song; it depends on the song list only; with two songs it is
    false exactly when their authors differ; and after [AddMainSong],
    [Remove] and [Clear] the author column is hidden exactly when the value
    recomputed on the new song list says so. *)
Theorem author_column_hide_predicate (pl : Playlist) :
  (fst (RefreshAuthorColumnVisibility pl) = true <->
   (length (entries pl) < 2 \/
    forall first n : PlaylistTreeModelNode,
      hd_error (entries pl) = Some first -> In n (entries pl) -> author n = author first)) /\
  (forall pl0, entries pl0 = entries pl ->
     fst (RefreshAuthorColumnVisibility pl0) = fst (RefreshAuthorColumnVisibility pl)) /\
  (forall a b : PlaylistTreeModelNode, entries pl = [a; b] ->
     (fst (RefreshAuthorColumnVisibility pl) = false <-> author a <> author b)) /\
  (forall (t f : wxString) (d dur : Z) (a : wxString) (rom : RomRequirement.t) (playable : bool),
     let pl' := snd (AddMainSong t f d dur a rom playable pl) in
     authorHidden pl' = fst (RefreshAuthorColumnVisibility pl')) /\
  (forall item pl', Remove item pl = Some pl' ->
     authorHidden pl' = fst (RefreshAuthorColumnVisibility pl')) /\
  authorHidden (Clear pl) = fst (RefreshAuthorColumnVisibility (Clear pl)).
Proof.
  split; [rewrite Refresh_returns; apply shouldHide_true|].
  split; [intros pl0 Hes; now rewrite !Refresh_returns, Hes|].
  split.
  { intros a b Hes. rewrite Refresh_returns, Hes. unfold shouldHide. simpl.
    rewrite String.eqb_refl. simpl. rewrite Bool.andb_true_r.
    split; intros H.
    - intros Heq. symmetry in Heq. apply String.eqb_eq in Heq. congruence.
    - apply String.eqb_neq. congruence. }
  split; [intros; apply refreshed_column|].
  split; [|apply refreshed_column].
  intros item pl' Hrem. unfold Remove in Hrem.
  destruct (deref item (entries pl)); [|discriminate].
  destruct (match GetActiveSong pl with Some _ => _ | None => _ end); [|discriminate].
  injection Hrem as <-. apply refreshed_column.
Qed.

(** Two songs by different authors: the value is false; once the second
    song is removed it is true and the column is hidden. *)
Lemma author_column_hide_predicate_witness :
  fst (RefreshAuthorColumnVisibility twoAuthors) = false /\
  authorHidden twoAuthors = false /\
  exists pl', Remove 2 twoAuthors = Some pl' /\
              fst (RefreshAuthorColumnVisibility pl') = true /\ authorHidden pl' = true.
Proof.
  pose proof (author_column_hide_predicate twoAuthors) as (_ & _ & Htwo & _ & Hremove & _).
  split; [eapply Htwo; [reflexivity|discriminate]|].
  split; [reflexivity|].
  destruct (Remove 2 twoAuthors) as [pl'|] eqn:Hrem; [|vm_compute in Hrem; discriminate].
  exists pl'. split; [reflexivity|].
  pose proof (Hremove 2 pl' Hrem) as Hcolumn.
  vm_compute in Hrem. injection Hrem as <-.
  split; [reflexivity|]. rewrite Hcolumn. reflexivity.
Defined.

(** ** Effective initial subsong *)

Lemma find_by_index (A : Type) (f : A -> Z) (l : list A) (base k : nat) (c : A) :
  map f l = map Z.of_nat (seq base (length l)) ->
  nth_error l k = Some c ->
  find (fun x => Z.eqb (f x) (Z.of_nat (base + k))) l = Some c.
Proof.
  revert base k. induction l as [|x t IH]; intros base k Hmap Hnth.
  - destruct k; discriminate.
  - simpl in Hmap. injection Hmap as Hx Ht. destruct k as [|k]; simpl in *.
    + injection Hnth as <-. rewrite Hx, Nat.add_0_r, Z.eqb_refl. reflexivity.
    + replace (Z.eqb (f x) (Z.of_nat (base + S k))) with false
        by (symmetry; apply Z.eqb_neq; lia).
      replace (base + S k) with (S base + k) by lia. now apply IH.
Qed.

Lemma GetSubsong_at (song : PlaylistTreeModelNode) (k : nat) (c : NodeFields) :
  contiguousIndices song ->
  nth_error (_children song) k = Some c ->
  GetSubsong song (Z.of_nat (S k)) = Some c.
Proof.
  intros Hc Hnth. unfold GetSubsong.
  now apply (find_by_index defaultSubsong (_children song) 1 k).
Qed.

(** Trying the indices in turn is walking the child collection. *)
Lemma scanInIndexOrder_find (song : PlaylistTreeModelNode) (rest pre : list NodeFields) :
  contiguousIndices song ->
  _children song = pre ++ rest ->
  scanInIndexOrder song (Z.of_nat (S (length pre))) (length rest) = find IsAutoPlayable rest.
Proof.
  intros Hc. revert pre. induction rest as [|x t IH]; intros pre Hsplit; [reflexivity|].
  cbn [length scanInIndexOrder find]. rewrite (@GetSubsong_at song (length pre) x Hc).
  - destruct (IsAutoPlayable x); [reflexivity|].
    replace (Z.of_nat (S (length pre)) + 1)%Z with (Z.of_nat (S (length (pre ++ [x]))))
      by (rewrite length_app; simpl; lia).
    apply IH. now rewrite <- app_assoc.
  - rewrite Hsplit, nth_error_app2, Nat.sub_diag by lia. reflexivity.
Qed.

Lemma GetEffectiveInitialSubsong_rule (pl : Playlist) (song : PlaylistTreeModelNode) :
  contiguousIndices song ->
  GetEffectiveInitialSubsong pl song =
  effectiveInitialSubsongRule (RepeatModeDefaultSubsong pl) song.
Proof.
  intros Hc. unfold GetEffectiveInitialSubsong, effectiveInitialSubsongRule, GetSubsongCount.
  pose proof (@scanInIndexOrder_find song (_children song) [] Hc eq_refl) as Hscan.
  change (Z.of_nat (S (length []))) with 1%Z in Hscan. rewrite Hscan.
  destruct (_children song) as [|c cs] eqn:Hch; [reflexivity|].
  cbv zeta. simpl (length (c :: cs) =? 0).
  destruct (GetSubsong song _) as [s|]; [|reflexivity].
  destruct (IsAutoPlayable s); reflexivity.
Qed.

(** C3. When the subsongs of a song carry the indices 1..N in order, the
    pointer [GetEffectiveInitialSubsong] returns is the one the three-step
    rule describes. In particular, with three subsongs of which only the
    first is not auto-playable, it is the second subsong when the option is
    off and the song's default subsong is 1, and the third one when the
    option is on and the default subsong is 3. *)
Theorem effective_initial_subsong (pl : Playlist) (song : PlaylistTreeModelNode) :
  contiguousIndices song ->
  GetEffectiveInitialSubsong pl song =
    effectiveInitialSubsongRule (RepeatModeDefaultSubsong pl) song /\
  (forall s1 s2 s3 : NodeFields,
     _children song = [s1; s2; s3] ->
     IsAutoPlayable s1 = false -> IsAutoPlayable s2 = true -> IsAutoPlayable s3 = true ->
     (RepeatModeDefaultSubsong pl = false -> defaultSubsong song = 1%Z ->
      GetEffectiveInitialSubsong pl song = Some (subsongNode s2)) /\
     (RepeatModeDefaultSubsong pl = true -> defaultSubsong song = 3%Z ->
      GetEffectiveInitialSubsong pl song = Some (subsongNode s3))).
Proof.
  intros Hc. split; [now apply GetEffectiveInitialSubsong_rule|].
  intros s1 s2 s3 Hch H1 H2 H3.
  pose proof (@GetSubsong_at song 0 s1 Hc) as G1.
  pose proof (@GetSubsong_at song 2 s3 Hc) as G3.
  rewrite Hch in G1, G3. specialize (G1 eq_refl). specialize (G3 eq_refl).
  unfold GetEffectiveInitialSubsong, GetSubsongCount. rewrite Hch. simpl.
  split; intros Hoption Hdefault; rewrite Hoption, ?Hdefault.
  - change 1%Z with (Z.of_nat 1). now rewrite G1, H1, H2.
  - change 3%Z with (Z.of_nat 3). now rewrite G3, H3.
Qed.

Lemma effective_initial_subsong_witness :
  contiguousIndices (threeSubsongs 1) /\ contiguousIndices (threeSubsongs 3) /\
  option_map (fun n : PlaylistTreeModelNode => defaultSubsong n)
    (GetEffectiveInitialSubsong (newPlaylist false) (threeSubsongs 1)) = Some 2%Z /\
  option_map (fun n : PlaylistTreeModelNode => defaultSubsong n)
    (GetEffectiveInitialSubsong (newPlaylist true) (threeSubsongs 3)) = Some 3%Z.
Proof.
  split; [reflexivity|]. split; [reflexivity|]. split.
  - rewrite (proj1 (@effective_initial_subsong (newPlaylist false) (threeSubsongs 1) eq_refl)).
    reflexivity.
  - rewrite (proj1 (@effective_initial_subsong (newPlaylist true) (threeSubsongs 3) eq_refl)).
    reflexivity.
Defined.

(** ** Neighbour search *)

(** C4 (amended). When the songs have pairwise distinct file paths,
    [GetNextSong] started from a song returns, within as many nested calls
    as there are songs after it, the effective initial subsong of the first
    auto-playable song after it, and null when there is none, in particular
    when the song is the last one; [GetPrevSong] does the same towards the
    front. So with the songs A, B, C of which A and C are auto-playable and
    B is not, [GetNextSong] from A returns the effective initial subsong of
    C and [GetPrevSong] from C that of A. *)
Theorem neighbour_search (pl : Playlist) :
  NoDup (map (fun n : PlaylistTreeModelNode => filepath n) (entries pl)) ->
  (forall (pre post : list PlaylistTreeModelNode) (fromSong : PlaylistTreeModelNode),
     entries pl = pre ++ fromSong :: post ->
     (forall calls, length post <= calls ->
        GetNextSong calls pl fromSong = Returned (firstAutoPlayable pl post)) /\
     (forall calls, length pre <= calls ->
        GetPrevSong calls pl fromSong = Returned (firstAutoPlayable pl (rev pre))) /\
     (post = [] -> forall calls, GetNextSong calls pl fromSong = Returned None) /\
     (pre = [] -> forall calls, GetPrevSong calls pl fromSong = Returned None)) /\
  (forall A B C : PlaylistTreeModelNode,
     entries pl = [A; B; C] ->
     IsAutoPlayable A = true -> IsAutoPlayable B = false -> IsAutoPlayable C = true ->
     forall calls, 1 <= calls ->
       GetNextSong calls pl A = Returned (GetEffectiveInitialSubsong pl C) /\
       GetPrevSong calls pl C = Returned (GetEffectiveInitialSubsong pl A)).
Proof.
  intros Hdistinct.
  assert (Hgeneral :
    forall (pre post : list PlaylistTreeModelNode) (fromSong : PlaylistTreeModelNode),
      entries pl = pre ++ fromSong :: post ->
      (forall calls, length post <= calls ->
         GetNextSong calls pl fromSong = Returned (firstAutoPlayable pl post)) /\
      (forall calls, length pre <= calls ->
         GetPrevSong calls pl fromSong = Returned (firstAutoPlayable pl (rev pre)))).
  { intros pre post fromSong Hes. split; intros calls Hcalls.
    - now apply GetNextSong_distinct_paths with (pre := pre).
    - now apply GetPrevSong_distinct_paths with (post := post). }
  split.
  - intros pre post fromSong Hes. destruct (Hgeneral pre post fromSong Hes) as [Hnext Hprev].
    repeat split; auto.
    + intros -> calls. apply Hnext. simpl. lia.
    + intros -> calls. apply Hprev. simpl. lia.
  - intros A B C Hes HA HB HC calls Hcalls.
    rewrite Hes in Hdistinct.
    assert (HitA : find_if (samePath A) (entries pl) = 0)
      by (rewrite Hes; exact (@find_if_distinct_paths [] [B; C] A Hdistinct)).
    assert (HitC : find_if (samePath C) (entries pl) = 2)
      by (rewrite Hes; exact (@find_if_distinct_paths [A; B] [] C Hdistinct)).
    rewrite GetNextSong_unfold, GetPrevSong_unfold. cbv zeta.
    rewrite HitA, HitC, Hes. cbn [length Nat.eqb nth_error pred orb].
    rewrite HB. destruct calls as [|calls]; [lia|].
    assert (HitB : find_if (samePath B) (entries pl) = 1)
      by (rewrite Hes; exact (@find_if_distinct_paths [A] [C] B Hdistinct)).
    rewrite GetNextSong_unfold, GetPrevSong_unfold. cbv zeta.
    rewrite HitB, Hes. cbn [length Nat.eqb nth_error pred orb].
    now rewrite HA, HC.
Qed.

Lemma neighbour_search_witness :
  NoDup (map (fun n : PlaylistTreeModelNode => filepath n) (entries songsABC)) /\
  option_map (fun n : PlaylistTreeModelNode => IsPlayable n) (deref 2 (entries songsABC))
    = Some false /\
  (forall A C, deref 1 (entries songsABC) = Some A -> deref 3 (entries songsABC) = Some C ->
     GetNextSong 1 songsABC A = Returned (GetEffectiveInitialSubsong songsABC C) /\
     GetPrevSong 1 songsABC C = Returned (GetEffectiveInitialSubsong songsABC A) /\
     GetNextSong 0 songsABC C = Returned None /\
     GetPrevSong 0 songsABC A = Returned None).
Proof.
  assert (Hdistinct :
    NoDup (map (fun n : PlaylistTreeModelNode => filepath n) (entries songsABC))).
  { repeat constructor; simpl; intuition discriminate. }
  split; [exact Hdistinct|]. split; [reflexivity|].
  intros A C [= <-] [= <-].
  destruct (neighbour_search songsABC Hdistinct) as [Hgeneral Habc].
  split; [|split; [|split]].
  - eapply Habc; reflexivity.
  - eapply Habc; reflexivity.
  - eapply (Hgeneral [_; _] []); reflexivity.
  - eapply (Hgeneral [] [_; _]); reflexivity.
Defined.

(** C4 (as stated it fails). "Playable" is not what the traversal tests:
    with the songs A, B, C of pairwise distinct files, A and C playable and
    B not, where C is tagged as too short and owns auto-playable subsongs,
    [GetNextSong] from A passes over C as well and returns null, while the
    effective initial subsong of C is its first subsong. And the songs are
    located by file path: when C plays the file of A, [GetPrevSong] from C
    finds A at the front of the list and returns null, while the effective
    initial subsong of A is A itself. Both states are reachable. *)
Lemma neighbour_search_not_as_claimed :
  (exists A B C c : PlaylistTreeModelNode,
     reachable songsABCShort /\
     entries songsABCShort = [A; B; C] /\
     NoDup (map (fun n : PlaylistTreeModelNode => filepath n) (entries songsABCShort)) /\
     IsPlayable A = true /\ IsPlayable B = false /\ IsPlayable C = true /\
     GetEffectiveInitialSubsong songsABCShort C = Some c /\
     (forall calls, 2 <= calls -> GetNextSong calls songsABCShort A = Returned None) /\
     (forall calls, GetNextSong calls songsABCShort A
                    <> Returned (GetEffectiveInitialSubsong songsABCShort C))) /\
  (exists A B C : PlaylistTreeModelNode,
     reachable songsAgainA /\
     entries songsAgainA = [A; B; C] /\
     IsPlayable A = true /\ IsPlayable B = false /\ IsPlayable C = true /\
     IsAutoPlayable A = true /\ IsAutoPlayable C = true /\
     GetEffectiveInitialSubsong songsAgainA A = Some A /\
     (forall calls, GetPrevSong calls songsAgainA C = Returned None)).
Proof.
  split.
  - do 4 eexists. split; [exact reachable_songsABCShort|].
    split; [vm_compute; reflexivity|].
    split; [repeat constructor; simpl; intuition discriminate|].
    do 3 (split; [reflexivity|]).
    split; [vm_compute; reflexivity|].
    split.
    + intros calls Hcalls. destruct calls as [|[|[|calls]]]; try lia; reflexivity.
    + intros calls H. destruct calls as [|[|[|calls]]]; vm_compute in H; discriminate H.
  - do 3 eexists. split; [exact reachable_songsAgainA|].
    split; [vm_compute; reflexivity|].
    do 5 (split; [reflexivity|]).
    split; [reflexivity|].
    intros calls. destruct calls; reflexivity.
Qed.

(** ** Adding subsongs *)

Lemma intIncr_of_nat (k : nat) :
  (Z.of_nat (S k) < 2 ^ 31)%Z -> intIncr (Z.of_nat k) = Z.of_nat (S k).
Proof.
  intros Hlt. unfold intIncr.
  rewrite Z.mod_small by lia. lia.
Qed.

Lemma AddSubsongs_loop_length (durations : list Z) (cnt : Z) (parent : NodeFields) (a : ptr) :
  length (AddSubsongs_loop durations cnt parent a) = length durations.
Proof.
  revert cnt a. induction durations as [|d rest IH]; intros cnt a; simpl; auto.
Qed.

Lemma AddSubsongs_loop_duration (durations : list Z) (cnt : Z) (parent : NodeFields) (a : ptr) :
  map duration (AddSubsongs_loop durations cnt parent a) = durations.
Proof.
  revert cnt a. induction durations as [|d rest IH]; intros cnt a; simpl; [reflexivity|].
  rewrite IH. f_equal. now destruct (Z.eqb (defaultSubsong parent) (intIncr cnt)).
Qed.

(** As long as the counter stays in the range of [int], the subsongs are
    numbered consecutively. *)
Lemma AddSubsongs_loop_indices (durations : list Z) (k : nat) (parent : NodeFields) (a : ptr) :
  (Z.of_nat (k + length durations) < 2 ^ 31)%Z ->
  map defaultSubsong (AddSubsongs_loop durations (Z.of_nat k) parent a)
  = map Z.of_nat (seq (S k) (length durations)).
Proof.
  revert k a. induction durations as [|d rest IH]; intros k a Hlt; [reflexivity|].
  simpl in Hlt. cbn [AddSubsongs_loop length seq map].
  rewrite intIncr_of_nat by lia. rewrite IH by (rewrite <- Nat.add_succ_comm in Hlt; exact Hlt).
  f_equal. now destruct (Z.eqb (defaultSubsong parent) (Z.of_nat (S k))).
Qed.

Lemma AddSubsongs_loop_createdFrom (durations : list Z) (cnt : Z) (parent : NodeFields)
    (a : ptr) :
  Forall (createdFrom parent) (AddSubsongs_loop durations cnt parent a).
Proof.
  revert cnt a. induction durations as [|d rest IH]; intros cnt a; simpl; constructor; auto.
  unfold createdFrom. rewrite (Z.eqb_sym _ (defaultSubsong parent)).
  destruct (Z.eqb (defaultSubsong parent) (intIncr cnt)) eqn:Hdefault; simpl;
    rewrite Hdefault; repeat split.
Qed.

Lemma find_adopt (p : ptr) (cs : list NodeFields) (es : list PlaylistTreeModelNode)
    (song : PlaylistTreeModelNode) :
  find (fun n : PlaylistTreeModelNode => hasAddress p n) es = Some song ->
  find (fun n : PlaylistTreeModelNode => hasAddress p n) (adopt p cs es)
  = Some (mkNode song (_children song ++ cs)).
Proof.
  induction es as [|n t IH]; simpl; [discriminate|].
  destruct (hasAddress p n) eqn:Hp; simpl; rewrite Hp; auto.
  now intros [= <-].
Qed.

(** C7 (amended). With no durations [AddSubsongs] hands back the control
    as it was. Otherwise, for a song of the store and fewer than 2^31
    durations, the song owns afterwards what it owned before followed by one
    new subsong per duration, in order: numbered 1..N, carrying the
    durations, titled with two leading blanks before
    "<parent title>: Subsong <n>", with the parent's file path and ROM
    requirement, with the parent's playability at the time of the call as
    playable flag, and with the default-subsong indicator as icon exactly on
    the subsong numbered like the parent's default subsong. *)
Theorem AddSubsongs_appends (durations : list Z) (parent : ptr) (pl : Playlist)
    (song : PlaylistTreeModelNode) :
  find (fun n : PlaylistTreeModelNode => hasAddress parent n) (entries pl) = Some song ->
  (Z.of_nat (length durations) < 2 ^ 31)%Z ->
  AddSubsongs [] parent pl = Some pl /\
  (durations <> [] ->
   exists (pl' : Playlist) (created : list NodeFields),
     AddSubsongs durations parent pl = Some pl' /\
     find (fun n : PlaylistTreeModelNode => hasAddress parent n) (entries pl')
       = Some (mkNode song (_children song ++ created)) /\
     length created = length durations /\
     map defaultSubsong created = map Z.of_nat (seq 1 (length durations)) /\
     map duration created = durations /\
     Forall (createdFrom song) created).
Proof.
  intros Hsong Hint. split; [reflexivity|].
  intros Hne. unfold AddSubsongs.
  destruct durations as [|d rest]; [congruence|].
  cbn [length Nat.eqb]. rewrite Hsong.
  set (ds := d :: rest) in *.
  exists (notify (ItemsAdded parent
                    (map self (AddSubsongs_loop ds 0 song (nextAddress pl))))
            (withNextAddress (nextAddress pl + S (length rest))
               (withEntries (adopt parent (AddSubsongs_loop ds 0 song (nextAddress pl))
                               (entries pl)) pl))),
         (AddSubsongs_loop ds 0 song (nextAddress pl)).
  split; [reflexivity|]. members.
  split; [now apply find_adopt|].
  split; [apply AddSubsongs_loop_length|].
  split; [apply (AddSubsongs_loop_indices ds 0); exact Hint|].
  split; [apply AddSubsongs_loop_duration|apply AddSubsongs_loop_createdFrom].
Qed.

Lemma AddSubsongs_appends_witness :
  exists song : PlaylistTreeModelNode,
    find (fun n : PlaylistTreeModelNode => hasAddress 1 n) (entries tuneAlone) = Some song /\
    (Z.of_nat (length [100; 200; 300]%Z) < 2 ^ 31)%Z /\
    [100; 200; 300]%Z <> [] /\
    exists (pl' : Playlist) (created : list NodeFields),
      AddSubsongs [100; 200; 300]%Z 1 tuneAlone = Some pl' /\
      find (fun n : PlaylistTreeModelNode => hasAddress 1 n) (entries pl')
        = Some (mkNode song (_children song ++ created)) /\
      length created = 3 /\
      map defaultSubsong created = [1; 2; 3]%Z /\
      map duration created = [100; 200; 300]%Z /\
      Forall (createdFrom song) created.
Proof.
  eexists. split; [vm_compute; reflexivity|]. split; [reflexivity|].
  split; [discriminate|].
  eapply AddSubsongs_appends; [vm_compute; reflexivity|reflexivity|discriminate].
Defined.

(** C7 (as stated it fails). The subsong created for "Tune" is titled
    "  Tune: Subsong 1", not "Tune: Subsong 1"; and a subsong created for
    the blacklisted "Tune", whose playable flag is set, has its flag clear. *)
Lemma AddSubsongs_not_as_claimed :
  (exists pl' song c,
     AddSubsongs [100]%Z 1 tuneAlone = Some pl' /\
     deref 1 (entries pl') = Some song /\ _children song = [c] /\
     title c <> titleWithoutIndent (title song) 1) /\
  (exists pl' song c,
     AddSubsongs [100]%Z 1 tuneBlacklisted = Some pl' /\
     deref 1 (entries pl') = Some song /\ _children song = [c] /\
     _playable song = true /\ _playable c = false).
Proof.
  split; do 3 eexists; (split; [vm_compute; reflexivity|]);
    (split; [vm_compute; reflexivity|]); (split; [reflexivity|]).
  - vm_compute. discriminate.
  - split; reflexivity.
Qed.

(** * Further properties *)

(** ** What the resolution and the song traversal hand out *)

Lemma GetEffectiveInitialSubsong_Some (pl : Playlist) (song r : PlaylistTreeModelNode) :
  GetEffectiveInitialSubsong pl song = Some r ->
  IsAutoPlayable r = true /\
  ((_children song = [] /\ r = song) \/
   (exists c, In c (_children song) /\ r = subsongNode c)).
Proof.
  unfold GetEffectiveInitialSubsong, GetSubsongCount, GetSubsong.
  destruct (_children song) as [|c cs] eqn:Hch.
  - simpl. destruct (IsAutoPlayable song) eqn:Hauto; [|discriminate].
    intros [= <-]. auto.
  - cbn [length Nat.eqb]. cbv zeta.
    destruct (find _ (c :: cs)) as [item|] eqn:Hpreferred.
    + destruct (IsAutoPlayable item) eqn:Hauto.
      * intros [= <-]. apply find_some in Hpreferred. split; [exact Hauto|].
        right. exists item. tauto.
      * destruct (find IsAutoPlayable (c :: cs)) as [s|] eqn:Hscan; [|discriminate].
        intros [= <-]. apply find_some in Hscan. split; [tauto|].
        right. exists s. tauto.
    + destruct (find IsAutoPlayable (c :: cs)) as [s|] eqn:Hscan; [|discriminate].
      intros [= <-]. apply find_some in Hscan. split; [tauto|].
      right. exists s. tauto.
Qed.

Lemma GetEffectiveInitialSubsong_None (pl : Playlist) (song : PlaylistTreeModelNode) :
  GetEffectiveInitialSubsong pl song = None <->
  ((_children song = [] /\ IsAutoPlayable song = false) \/
   (_children song <> [] /\ forall c, In c (_children song) -> IsAutoPlayable c = false)).
Proof.
  unfold GetEffectiveInitialSubsong, GetSubsongCount, GetSubsong.
  destruct (_children song) as [|c cs] eqn:Hch.
  - simpl. destruct (IsAutoPlayable song); split; try discriminate; auto.
    intros [[_ H]|[H _]]; congruence.
  - cbn [length Nat.eqb]. cbv zeta. split.
    + intros H. right. split; [discriminate|].
      assert (Hscan : find IsAutoPlayable (c :: cs) = None).
      { destruct (find _ (c :: cs)) as [item|]; [destruct (IsAutoPlayable item)|];
          try discriminate;
          destruct (find IsAutoPlayable (c :: cs)); try discriminate; reflexivity. }
      intros x Hx. exact (find_none _ _ Hscan x Hx).
    + intros [[H _]|[_ H]]; [discriminate|].
      assert (Hscan : find IsAutoPlayable (c :: cs) = None).
      { destruct (find IsAutoPlayable (c :: cs)) as [s|] eqn:Hs; [|reflexivity].
        apply find_some in Hs. destruct Hs as [Hin Hauto].
        rewrite (H s Hin) in Hauto. discriminate. }
      rewrite Hscan. clear Hscan.
      destruct (find _ (c :: cs)) as [item|] eqn:Hpreferred; [|reflexivity].
      apply find_some in Hpreferred. now rewrite (H item (proj1 Hpreferred)).
Qed.

(** X3. The entry [GetEffectiveInitialSubsong] returns is always
    auto-playable, and it is the song itself when the song has no subsongs
    and one of its subsongs otherwise; it returns null exactly when there is
    nothing auto-playable to return: a song without subsongs that is not
    auto-playable, or a song none of whose subsongs is. *)
Theorem GetEffectiveInitialSubsong_result (pl : Playlist) (song : PlaylistTreeModelNode) :
  (forall r, GetEffectiveInitialSubsong pl song = Some r ->
     IsAutoPlayable r = true /\
     ((_children song = [] /\ r = song) \/
      (exists c, In c (_children song) /\ r = subsongNode c))) /\
  (GetEffectiveInitialSubsong pl song = None <->
   ((_children song = [] /\ IsAutoPlayable song = false) \/
    (_children song <> [] /\ forall c, In c (_children song) -> IsAutoPlayable c = false))).
Proof.
  split; [intros r; apply GetEffectiveInitialSubsong_Some|
          apply GetEffectiveInitialSubsong_None].
Qed.

Lemma resolved_in_store (pl : Playlist) (song r : PlaylistTreeModelNode) :
  In song (entries pl) ->
  GetEffectiveInitialSubsong pl song = Some r ->
  IsAutoPlayable r = true /\ In (fields r) (allNodes (entries pl)).
Proof.
  intros Hin Hr. apply GetEffectiveInitialSubsong_Some in Hr.
  destruct Hr as [Hauto Hwhich]. split; [exact Hauto|].
  apply in_allNodes. destruct Hwhich as [[_ ->]|(c & Hc & ->)].
  - left. now apply in_map.
  - right. apply in_flat_map. exists song. auto.
Qed.

Lemma GetNextSong_hands_out (calls : nat) (pl : Playlist) (fromSong r : PlaylistTreeModelNode) :
  GetNextSong calls pl fromSong = Returned (Some r) ->
  IsAutoPlayable r = true /\ In (fields r) (allNodes (entries pl)).
Proof.
  revert fromSong. induction calls as [|calls IH]; intros fromSong;
    rewrite GetNextSong_unfold; cbv zeta;
    destruct (_ =? _); try discriminate;
    destruct (_ =? _); try discriminate;
    destruct (nth_error _ _) as [nextSong|] eqn:Hnth; try discriminate;
    (destruct (IsAutoPlayable nextSong);
     [intros [= Hr]; apply (resolved_in_store pl nextSong); auto;
      eapply nth_error_In; eauto|]);
    [discriminate|apply IH].
Qed.

Lemma GetPrevSong_hands_out (calls : nat) (pl : Playlist) (fromSong r : PlaylistTreeModelNode) :
  GetPrevSong calls pl fromSong = Returned (Some r) ->
  IsAutoPlayable r = true /\ In (fields r) (allNodes (entries pl)).
Proof.
  revert fromSong. induction calls as [|calls IH]; intros fromSong;
    rewrite GetPrevSong_unfold; cbv zeta;
    destruct (_ || _); try discriminate;
    destruct (nth_error _ _) as [prevSong|] eqn:Hnth; try discriminate;
    (destruct (IsAutoPlayable prevSong);
     [intros [= Hr]; apply (resolved_in_store pl prevSong); auto;
      eapply nth_error_In; eauto|]);
    [discriminate|apply IH].
Qed.

(** X2. Whatever the state, duplicated file paths included, the entry
    [GetNextSong] or [GetPrevSong] returns, when it is not null, is an
    auto-playable entry of the store. *)
Theorem song_traversal_hands_out_auto_playable (calls : nat) (pl : Playlist)
    (fromSong r : PlaylistTreeModelNode) :
  GetNextSong calls pl fromSong = Returned (Some r) \/
  GetPrevSong calls pl fromSong = Returned (Some r) ->
  IsAutoPlayable r = true /\ In (fields r) (allNodes (entries pl)).
Proof.
  intros [H|H]; [eapply GetNextSong_hands_out|eapply GetPrevSong_hands_out]; eauto.
Qed.

Lemma song_traversal_hands_out_auto_playable_witness :
  exists A C,
    deref 1 (entries songsABC) = Some A /\ deref 3 (entries songsABC) = Some C /\
    GetNextSong 1 songsABC A = Returned (Some C) /\
    IsAutoPlayable C = true /\ In (fields C) (allNodes (entries songsABC)).
Proof.
  do 2 eexists. split; [vm_compute; reflexivity|]. split; [vm_compute; reflexivity|].
  split; [vm_compute; reflexivity|].
  apply (@song_traversal_hands_out_auto_playable 1 songsABC
           (mkNode (newNode 1 None "A" "a.sid" 1 0 "Hubbard" RomRequirement.None true) [])).
  left. vm_compute. reflexivity.
Defined.

(** ** Searching backward *)

Lemma GetPrevSong_more_calls (calls : nat) (pl : Playlist) (fromSong : PlaylistTreeModelNode)
    (r : option PlaylistTreeModelNode) :
  GetPrevSong calls pl fromSong = Returned r ->
  forall calls', calls <= calls' -> GetPrevSong calls' pl fromSong = Returned r.
Proof.
  revert fromSong. induction calls as [|calls IH]; intros fromSong H calls' Hle;
    rewrite GetPrevSong_unfold in H |- *; cbv zeta in *;
    destruct (_ || _); auto;
    destruct (nth_error _ _) as [prevSong|]; auto;
    destruct (IsAutoPlayable prevSong); auto; try discriminate.
  destruct calls' as [|calls']; [lia|]. apply IH; [exact H|lia].
Qed.

(** X1. In every state, duplicated file paths included, [GetPrevSong]
    returns: as many nested calls as there are songs before the place where
    the file path of [fromSong] is first found are enough, and a larger
    bound gives the same answer. *)
Theorem GetPrevSong_always_returns (calls : nat) (pl : Playlist)
    (fromSong : PlaylistTreeModelNode) :
  find_if (samePath fromSong) (entries pl) <= calls ->
  exists r, forall calls', calls <= calls' -> GetPrevSong calls' pl fromSong = Returned r.
Proof.
  intros Hle. destruct (@GetPrevSong_returns pl calls fromSong Hle) as [r Hr].
  exists r. intros calls' Hcalls'. now apply GetPrevSong_more_calls with (calls := calls).
Qed.

(** On the two songs sharing one file, where [GetNextSong] never returns. *)
Lemma GetPrevSong_always_returns_witness :
  exists fromSong, deref 2 (entries sameFileTwice) = Some fromSong /\
    find_if (samePath fromSong) (entries sameFileTwice) <= 0 /\
    exists r, forall calls', 0 <= calls' ->
      GetPrevSong calls' sameFileTwice fromSong = Returned r.
Proof.
  eexists. split; [vm_compute; reflexivity|]. split; [vm_compute; lia|].
  apply GetPrevSong_always_returns. vm_compute. lia.
Defined.

(** ** Traversal from the active entry *)

Lemma GetNextSong_by_path (calls : nat) (pl : Playlist) (x y : PlaylistTreeModelNode) :
  filepath x = filepath y -> GetNextSong calls pl x = GetNextSong calls pl y.
Proof.
  intros Hpath. rewrite !GetNextSong_unfold. unfold samePath. now rewrite Hpath.
Qed.

Lemma GetPrevSong_by_path (calls : nat) (pl : Playlist) (x y : PlaylistTreeModelNode) :
  filepath x = filepath y -> GetPrevSong calls pl x = GetPrevSong calls pl y.
Proof.
  intros Hpath. rewrite !GetPrevSong_unfold. unfold samePath. now rewrite Hpath.
Qed.

(** X4. In a reachable state, [GetNextSong()] and [GetPrevSong()] are
    defined and answer what [GetNextSong(song)] and [GetPrevSong(song)]
    answer for the song in whose tree the active entry lies: an active
    subsong stands for the song that owns it. *)
Theorem song_traversal_from_active_entry (calls : nat) (pl : Playlist) (a : ptr)
    (activeSong song : PlaylistTreeModelNode) :
  reachable pl ->
  GetActiveSong pl = Some a ->
  deref a (entries pl) = Some activeSong ->
  In song (entries pl) ->
  In (fields activeSong) (allNodes [song]) ->
  GetNextSong_active calls pl = Some (GetNextSong calls pl song) /\
  GetPrevSong_active calls pl = Some (GetPrevSong calls pl song).
Proof.
  intros Hreach Hact Ha Hsong Htree.
  apply reachable_wellFormed in Hreach. destruct Hreach as [Hp _ _ _].
  rewrite Forall_forall in Hp.
  pose proof (tree_path (Hp song Hsong) Htree) as Hpath.
  unfold GetNextSong_active, GetPrevSong_active, andThen. rewrite Hact, Ha.
  now rewrite (GetNextSong_by_path calls pl _ _ Hpath),
              (GetPrevSong_by_path calls pl _ _ Hpath).
Qed.

Lemma song_traversal_from_active_entry_witness :
  GetActiveSong tuneSecondSubsongActive = Some 3 /\
  forall song, deref 1 (entries tuneSecondSubsongActive) = Some song ->
    GetNextSong_active 0 tuneSecondSubsongActive
      = Some (GetNextSong 0 tuneSecondSubsongActive song) /\
    GetPrevSong_active 0 tuneSecondSubsongActive
      = Some (GetPrevSong 0 tuneSecondSubsongActive song).
Proof.
  split; [reflexivity|]. intros song [= <-].
  eapply (@song_traversal_from_active_entry 0 tuneSecondSubsongActive 3).
  - apply reachable_tuneSecondSubsongActive.
  - reflexivity.
  - vm_compute. reflexivity.
  - left. reflexivity.
  - vm_compute. tauto.
Defined.

(** ** Traversal over the subsongs of a song *)

Lemma GetNextSubsong_unfold (calls : nat) (pl : Playlist) (fromSubsong : PlaylistTreeModelNode) :
  GetNextSubsong calls pl fromSubsong =
  match GetSong pl (filepath fromSubsong) with
  | None => Some (Returned None)
  | Some mainSong =>
      if (Z.of_nat (GetSubsongCount mainSong) <=? defaultSubsong fromSubsong)%Z
      then Some (Returned None)
      else
        match Playlist_GetSubsong pl (filepath fromSubsong)
                                  (defaultSubsong fromSubsong + 1) with
        | None => None
        | Some nextSubsong =>
            if IsAutoPlayable nextSubsong then Some (Returned (Some nextSubsong))
            else
              match calls with
              | 0 => Some Unfinished
              | S calls => GetNextSubsong calls pl nextSubsong
              end
        end
  end.
Proof. destruct calls; reflexivity. Qed.

Lemma GetPrevSubsong_unfold (calls : nat) (pl : Playlist) (fromSubsong : PlaylistTreeModelNode) :
  GetPrevSubsong calls pl fromSubsong =
  if (defaultSubsong fromSubsong <=? 1)%Z then Some (Returned None)
  else
    match Playlist_GetSubsong pl (filepath fromSubsong)
                              (defaultSubsong fromSubsong - 1) with
    | None => None
    | Some prevSubsong =>
        if IsAutoPlayable prevSubsong then Some (Returned (Some prevSubsong))
        else
          match calls with
          | 0 => Some Unfinished
          | S calls => GetPrevSubsong calls pl prevSubsong
          end
    end.
Proof. destruct calls; reflexivity. Qed.

Lemma index_at (A : Type) (f : A -> Z) (l : list A) (base k : nat) (c : A) :
  map f l = map Z.of_nat (seq base (length l)) ->
  nth_error l k = Some c ->
  f c = Z.of_nat (base + k).
Proof.
  revert base k. induction l as [|x t IH]; intros base k Hmap Hnth.
  - destruct k; discriminate.
  - simpl in Hmap. injection Hmap as Hx Ht. destruct k as [|k]; simpl in Hnth.
    + injection Hnth as <-. now rewrite Nat.add_0_r.
    + replace (base + S k) with (S base + k) by lia. now apply IH.
Qed.

Section Subsongs.
Variable pl : Playlist.
Variable song : PlaylistTreeModelNode.

Hypothesis found : GetSong pl (filepath song) = Some song.
Hypothesis numbered : contiguousIndices song.
Hypothesis samePaths : ownsItsPath song.

Lemma subsong_index (pre rest : list NodeFields) (c : NodeFields) :
  _children song = pre ++ c :: rest ->
  defaultSubsong c = Z.of_nat (S (length pre)) /\ filepath c = filepath song.
Proof.
  intros Hsplit. split.
  - apply (index_at defaultSubsong (_children song) 1 (length pre)); [exact numbered|].
    rewrite Hsplit, nth_error_app2, Nat.sub_diag by lia. reflexivity.
  - unfold ownsItsPath in samePaths. rewrite Forall_forall in samePaths.
    apply samePaths. rewrite Hsplit. apply in_or_app. right. now left.
Qed.

Lemma fetch_subsong (pre rest : list NodeFields) (c : NodeFields) :
  _children song = pre ++ c :: rest ->
  Playlist_GetSubsong pl (filepath song) (Z.of_nat (S (length pre))) = Some (subsongNode c).
Proof.
  intros Hsplit. unfold Playlist_GetSubsong. rewrite found.
  replace (Z.eqb (Z.of_nat (S (length pre))) 0) with false
    by (symmetry; apply Z.eqb_neq; lia).
  rewrite (@GetSubsong_at song (length pre) c numbered); [reflexivity|].
  rewrite Hsplit, nth_error_app2, Nat.sub_diag by lia. reflexivity.
Qed.

Lemma GetNextSubsong_closed (rest pre : list NodeFields) (c : NodeFields) (calls : nat) :
  _children song = pre ++ c :: rest ->
  length rest <= calls ->
  GetNextSubsong calls pl (subsongNode c)
  = Some (Returned (option_map subsongNode (find IsAutoPlayable rest))).
Proof.
  revert pre c calls. induction rest as [|c' rest IH]; intros pre c calls Hsplit Hcalls;
    rewrite GetNextSubsong_unfold;
    destruct (subsong_index pre _ c Hsplit) as [Hindex Hpath];
    cbn [fields subsongNode]; rewrite Hpath, found, Hindex;
    unfold GetSubsongCount; rewrite Hsplit, length_app; cbn [length].
  - replace (Z.of_nat (length pre + 1) <=? Z.of_nat (S (length pre)))%Z with true
      by (symmetry; apply Z.leb_le; lia).
    reflexivity.
  - replace (Z.of_nat (length pre + S (S (length rest))) <=? Z.of_nat (S (length pre)))%Z
      with false by (symmetry; apply Z.leb_gt; lia).
    replace (Z.of_nat (S (length pre)) + 1)%Z with (Z.of_nat (S (length (pre ++ [c]))))
      by (rewrite length_app; simpl; lia).
    rewrite (fetch_subsong (pre ++ [c]) rest c') by (now rewrite <- app_assoc).
    cbn [fields subsongNode find].
    destruct (IsAutoPlayable c'); [reflexivity|].
    simpl in Hcalls. destruct calls as [|calls]; [lia|].
    apply (IH (pre ++ [c])); [now rewrite <- app_assoc|lia].
Qed.

Lemma GetPrevSubsong_closed (pre rest : list NodeFields) (c : NodeFields) (calls : nat) :
  _children song = pre ++ c :: rest ->
  length pre <= calls ->
  GetPrevSubsong calls pl (subsongNode c)
  = Some (Returned (option_map subsongNode (find IsAutoPlayable (rev pre)))).
Proof.
  revert rest c calls. induction pre as [|c' pre IH] using rev_ind;
    intros rest c calls Hsplit Hcalls;
    rewrite GetPrevSubsong_unfold;
    destruct (subsong_index _ rest c Hsplit) as [Hindex Hpath];
    cbn [fields subsongNode]; rewrite Hpath, Hindex.
  - reflexivity.
  - rewrite length_app in *. cbn [length] in *.
    replace (Z.of_nat (S (length pre + 1)) <=? 1)%Z with false
      by (symmetry; apply Z.leb_gt; lia).
    replace (Z.of_nat (S (length pre + 1)) - 1)%Z with (Z.of_nat (S (length pre))) by lia.
    rewrite (fetch_subsong pre (c :: rest) c') by (now rewrite Hsplit, <- app_assoc).
    rewrite rev_app_distr. cbn [fields subsongNode find rev app].
    destruct (IsAutoPlayable c'); [reflexivity|].
    destruct calls as [|calls]; [lia|].
    apply (IH (c :: rest)); [now rewrite Hsplit, <- app_assoc|lia].
Qed.
End Subsongs.

(** X5. For a song that is the first one found under its file path and
    whose subsongs are numbered 1..N and play its file: [GetNextSubsong]
    from one of its subsongs returns, within as many nested calls as there
    are subsongs after it, the first auto-playable subsong after it, and
    null when there is none (so at the last subsong); [GetPrevSubsong] does
    the same towards the front (null at the first subsong). Neither is ever
    undefined there. *)
Theorem subsong_traversal (pl : Playlist) (song : PlaylistTreeModelNode)
    (pre rest : list NodeFields) (c : NodeFields) :
  GetSong pl (filepath song) = Some song ->
  contiguousIndices song ->
  ownsItsPath song ->
  _children song = pre ++ c :: rest ->
  (forall calls, length rest <= calls ->
     GetNextSubsong calls pl (subsongNode c)
     = Some (Returned (option_map subsongNode (find IsAutoPlayable rest)))) /\
  (forall calls, length pre <= calls ->
     GetPrevSubsong calls pl (subsongNode c)
     = Some (Returned (option_map subsongNode (find IsAutoPlayable (rev pre))))) /\
  (rest = [] -> forall calls, GetNextSubsong calls pl (subsongNode c) = Some (Returned None)) /\
  (pre = [] -> forall calls, GetPrevSubsong calls pl (subsongNode c) = Some (Returned None)).
Proof.
  intros Hfound Hnumbered Hpaths Hsplit.
  assert (Hnext := fun calls =>
    @GetNextSubsong_closed pl song Hfound Hnumbered Hpaths rest pre c calls Hsplit).
  assert (Hprev := fun calls =>
    @GetPrevSubsong_closed pl song Hfound Hnumbered Hpaths pre rest c calls Hsplit).
  repeat split; auto.
  - intros -> calls. apply Hnext. simpl. lia.
  - intros -> calls. apply Hprev. simpl. lia.
Qed.

(** From the first subsong of "Tune" the next one is the third, the second
    being tagged as too short; from the third the previous one is the first. *)
Lemma subsong_traversal_witness :
  exists song s1 s2 s3,
    GetSong tuneSecondSubsongShort "tune.sid" = Some song /\
    _children song = [s1; s2; s3] /\
    GetNextSubsong 2 tuneSecondSubsongShort (subsongNode s1)
      = Some (Returned (Some (subsongNode s3))) /\
    GetPrevSubsong 2 tuneSecondSubsongShort (subsongNode s3)
      = Some (Returned (Some (subsongNode s1))) /\
    GetNextSubsong 0 tuneSecondSubsongShort (subsongNode s3) = Some (Returned None) /\
    GetPrevSubsong 0 tuneSecondSubsongShort (subsongNode s1) = Some (Returned None).
Proof.
  assert (Hgeneral : forall song s1 s2 s3,
    GetSong tuneSecondSubsongShort "tune.sid" = Some song ->
    _children song = [s1; s2; s3] ->
    GetNextSubsong 2 tuneSecondSubsongShort (subsongNode s1)
      = Some (Returned (Some (subsongNode s3))) /\
    GetPrevSubsong 2 tuneSecondSubsongShort (subsongNode s3)
      = Some (Returned (Some (subsongNode s1))) /\
    GetNextSubsong 0 tuneSecondSubsongShort (subsongNode s3) = Some (Returned None) /\
    GetPrevSubsong 0 tuneSecondSubsongShort (subsongNode s1) = Some (Returned None)).
  { intros song s1 s2 s3 Hsong Hch.
    assert (Hfacts : filepath song = "tune.sid"%string /\ contiguousIndices song /\
                     ownsItsPath song /\
                     (IsAutoPlayable s1 = true /\ IsAutoPlayable s2 = false /\
                      IsAutoPlayable s3 = true)).
    { vm_compute in Hsong. injection Hsong as <-. injection Hch as <- <- <-.
      repeat split; repeat constructor. }
    destruct Hfacts as (Hpath & Hnumbered & Hown & H1 & H2 & H3).
    rewrite <- Hpath in Hsong.
    destruct (@subsong_traversal tuneSecondSubsongShort song [] [s2; s3] s1
                Hsong Hnumbered Hown Hch) as (Hnext1 & _ & _ & Hprev1).
    destruct (@subsong_traversal tuneSecondSubsongShort song [s1; s2] [] s3
                Hsong Hnumbered Hown Hch) as (_ & Hprev3 & Hnext3 & _).
    rewrite Hnext1, Hprev3 by (simpl; lia). simpl find. rewrite H1, H2, H3.
    auto. }
  do 4 eexists. split; [vm_compute; reflexivity|]. split; [reflexivity|].
  eapply Hgeneral; [vm_compute; reflexivity|reflexivity].
Defined.

(** ** Adding, removing and looking up *)

Lemma find_app_first (A : Type) (P : A -> bool) (l l' : list A) :
  find P (l ++ l') = match find P l with
                     | Some x => Some x
                     | None => find P l'
                     end.
Proof.
  induction l as [|x t IH]; simpl; [reflexivity|]. now destruct (P x).
Qed.

Lemma find_nothing (A : Type) (P : A -> bool) (l : list A) :
  (forall x, In x l -> P x = false) -> find P l = None.
Proof.
  induction l as [|x t IH]; simpl; intros H; [reflexivity|].
  rewrite (H x) by auto. apply IH. auto.
Qed.

Lemma find_map_same (A : Type) (P : A -> bool) (g : A -> A) (l : list A) :
  (forall x, P (g x) = P x) -> find P (map g l) = option_map g (find P l).
Proof.
  intros Hg. induction l as [|x t IH]; simpl; [reflexivity|].
  rewrite Hg. now destruct (P x).
Qed.

Lemma roots_distinct (pre post : list PlaylistTreeModelNode) (song : PlaylistTreeModelNode) :
  NoDup (addresses (pre ++ song :: post)) ->
  forall r : PlaylistTreeModelNode, In r pre -> hasAddress (self song) r = false.
Proof.
  induction pre as [|r0 pre IH]; simpl; intros Hnd r Hr; [tauto|].
  destruct Hr as [<-|Hr].
  - pose proof (unique_root Hnd song) as Hu.
    unfold hasAddress in *. rewrite Nat.eqb_sym. apply Hu.
    apply in_or_app. right. now left.
  - apply IH; auto. now apply NoDup_addresses_tail in Hnd.
Qed.

(** X6. [AddMainSong] appends the new song at the end of the song list
    and leaves the other songs as they are. Looking its file path up
    afterwards yields the song that was found under that path before, if
    there was one, and the new song otherwise; other paths are looked up as
    before. In a reachable state the handle returned refers to the new song. *)
Theorem AddMainSong_then_GetSong (t f : wxString) (d dur : Z) (a : wxString)
    (rom : RomRequirement.t) (playable : bool) (pl : Playlist) :
  let added := mkNode (newNode (nextAddress pl) None t f d dur a rom playable) [] in
  let handle := fst (AddMainSong t f d dur a rom playable pl) in
  let pl' := snd (AddMainSong t f d dur a rom playable pl) in
  entries pl' = entries pl ++ [added] /\
  GetSong pl' f = match GetSong pl f with
                  | Some s => Some s
                  | None => Some added
                  end /\
  (forall g, g <> f -> GetSong pl' g = GetSong pl g) /\
  IsEmpty pl' = false /\
  (reachable pl -> deref handle (entries pl') = Some added).
Proof.
  cbv zeta. unfold AddMainSong. cbv zeta. cbn [fst snd].
  assert (Hes : entries (snd (RefreshAuthorColumnVisibility
                  (notify (ItemAdded None (nextAddress pl))
                     (withNextAddress (S (nextAddress pl))
                        (withEntries
                           (entries pl ++
                            [mkNode (newNode (nextAddress pl) None t f d dur a rom playable) []])
                           pl)))))
                = entries pl ++
                  [mkNode (newNode (nextAddress pl) None t f d dur a rom playable) []])
    by (now rewrite Refresh_entries).
  unfold GetSong, IsEmpty. rewrite Hes.
  split; [reflexivity|]. split.
  { rewrite find_app_first. destruct (find _ (entries pl)); [reflexivity|].
    simpl. now rewrite String.eqb_refl. }
  split.
  { intros g Hg. rewrite find_app_first. destruct (find _ (entries pl)); [reflexivity|].
    simpl. replace (String.eqb f g) with false; [reflexivity|].
    symmetry. apply String.eqb_neq. congruence. }
  split; [now destruct (entries pl)|].
  intros Hreach. apply reachable_wellFormed in Hreach. destruct Hreach as [_ Hfresh _ _].
  unfold deref. rewrite find_app_first, find_nothing.
  - simpl. unfold hasAddress. simpl. now rewrite Nat.eqb_refl.
  - intros r Hr. apply Nat.eqb_neq. rewrite Forall_forall in Hfresh.
    assert (self r < nextAddress pl); [|lia].
    apply Hfresh. unfold addresses. apply in_map. apply in_allNodes. left. now apply in_map.
Qed.

(** Adding the file of "Tune" again: the lookup still yields "Tune". *)
Lemma AddMainSong_then_GetSong_witness :
  reachable tuneAlone /\
  GetSong sameFileTwice "tune.sid" = GetSong tuneAlone "tune.sid" /\
  option_map (fun s : PlaylistTreeModelNode => title s) (deref 2 (entries sameFileTwice))
    = Some "Tune again"%string.
Proof.
  destruct (AddMainSong_then_GetSong "Tune again" "tune.sid" 1 0 "Hubbard"
              RomRequirement.None false tuneAlone) as (_ & Hfound & _ & _ & Hhandle).
  split; [apply reachable_tuneAlone|]. split.
  - exact Hfound.
  - change sameFileTwice with
      (snd (AddMainSong "Tune again" "tune.sid" 1 0 "Hubbard" RomRequirement.None false
              tuneAlone)).
    change 2 with
      (fst (AddMainSong "Tune again" "tune.sid" 1 0 "Hubbard" RomRequirement.None false
              tuneAlone)).
    now rewrite (Hhandle reachable_tuneAlone).
Defined.

(** X7. In a reachable state whose songs have pairwise distinct file
    paths, removing a song takes exactly that song out of the song list,
    the others keeping their order; afterwards its file path is not found
    any more, and every other path is looked up as before. *)
Theorem Remove_song_then_GetSong (pl pl' : Playlist)
    (pre post : list PlaylistTreeModelNode) (song : PlaylistTreeModelNode) :
  reachable pl ->
  NoDup (map (fun n : PlaylistTreeModelNode => filepath n) (entries pl)) ->
  entries pl = pre ++ song :: post ->
  Remove (self song) pl = Some pl' ->
  entries pl' = pre ++ post /\
  GetSong pl' (filepath song) = None /\
  (forall g, g <> filepath song -> GetSong pl' g = GetSong pl g).
Proof.
  intros Hreach Hpaths Hsplit Hrem.
  apply reachable_wellFormed in Hreach. destruct Hreach as [_ _ Hunique _].
  rewrite Hsplit in Hunique, Hpaths.
  assert (Hes : entries pl' = pre ++ post).
  { apply (@Remove_song (self song) pl pl' pre post song); auto.
    - apply Nat.eqb_refl.
    - now apply roots_distinct with (post := post). }
  unfold GetSong. rewrite Hes, Hsplit. split; [reflexivity|]. split.
  - apply find_nothing. intros x Hx. apply String.eqb_neq. intros Heq.
    rewrite map_app in Hpaths. simpl in Hpaths. apply NoDup_remove_2 in Hpaths.
    apply Hpaths. rewrite <- Heq. rewrite <- map_app.
    now apply (in_map (fun n : PlaylistTreeModelNode => filepath n)).
  - intros g Hg. rewrite !find_app_first. simpl.
    replace (String.eqb (filepath song) g) with false; [reflexivity|].
    symmetry. apply String.eqb_neq. congruence.
Qed.

Lemma Remove_song_then_GetSong_witness :
  reachable tuneAndOther /\
  exists pl', Remove 1 tuneAndOther = Some pl' /\
    GetSong pl' "tune.sid" = None /\
    GetSong pl' "other.sid" = GetSong tuneAndOther "other.sid" /\
    songOrder tuneAndOther = [1; 2] /\ songOrder pl' = [2].
Proof.
  assert (Hreach : reachable tuneAndOther)
    by (eapply reach_step; [apply reachable_tuneAlone|apply step_AddMainSong]).
  split; [exact Hreach|].
  destruct (Remove 1 tuneAndOther) as [pl'|] eqn:Hrem; [|vm_compute in Hrem; discriminate].
  exists pl'. split; [reflexivity|].
  assert (Hpaths : NoDup (map (fun n : PlaylistTreeModelNode => filepath n)
                            (entries tuneAndOther))).
  { repeat constructor; simpl; intuition discriminate. }
  destruct (@Remove_song_then_GetSong tuneAndOther pl' [] _ _ Hreach Hpaths eq_refl Hrem)
    as (Hes & Hgone & Hothers).
  split; [exact Hgone|]. split; [apply Hothers; discriminate|].
  split; [reflexivity|]. unfold songOrder. rewrite Hes. reflexivity.
Defined.

Lemma songOrder_skeleton (pl pl' : Playlist) :
  skeleton (entries pl') = skeleton (entries pl) -> songOrder pl' = songOrder pl.
Proof.
  intros Hsk. unfold songOrder.
  assert (H : forall es, map (fun n : PlaylistTreeModelNode => self n) es
                         = map (fun s => fst (fst s)) (skeleton es)).
  { intros es. unfold skeleton. rewrite map_map. reflexivity. }
  now rewrite !H, Hsk.
Qed.

Lemma adopt_roots (p : ptr) (cs : list NodeFields) (es : list PlaylistTreeModelNode) :
  map fields (adopt p cs es) = map fields es.
Proof.
  unfold adopt. rewrite map_map. apply map_ext. intros n. now destruct (hasAddress p n).
Qed.

Lemma AddSubsongs_roots (durations : list Z) (parent : ptr) (pl pl' : Playlist) :
  AddSubsongs durations parent pl = Some pl' ->
  map fields (entries pl') = map fields (entries pl).
Proof.
  unfold AddSubsongs. destruct (length durations =? 0); [now intros [= <-]|].
  destruct (find _ (entries pl)); [|discriminate].
  intros [= <-]. members. apply adopt_roots.
Qed.

(** X8. The song list only ever changes at the end or by one removal: a
    call of a member function appends one song, or takes one song out and
    leaves the others in their order, or empties the list, or leaves the
    order of the songs as it is. *)
Theorem song_order_is_insertion_order (pl pl' : Playlist) :
  step pl pl' ->
  (exists a, songOrder pl' = songOrder pl ++ [a]) \/
  (exists pre x post, songOrder pl = pre ++ x :: post /\ songOrder pl' = pre ++ post) \/
  songOrder pl' = [] \/
  songOrder pl' = songOrder pl.
Proof.
  intros Hstep. destruct Hstep.
  - right. right. right. reflexivity.
  - left. exists (nextAddress pl). unfold songOrder, AddMainSong. cbv zeta. cbn [snd].
    rewrite Refresh_entries. members. now rewrite map_app.
  - right. right. right. unfold songOrder.
    apply AddSubsongs_roots in H.
    rewrite <- (map_map fields self), H, map_map. reflexivity.
  - apply Remove_inv in H. destruct H as (node & _ & _ & Hes & _). cbv zeta in Hes.
    set (it := find_if (fun q : PlaylistTreeModelNode => hasAddress item q) (entries pl)) in *.
    destruct (it =? length (entries pl)) eqn:Hend.
    + right. right. right. unfold songOrder. now rewrite Hes.
    + right. left. apply Nat.eqb_neq in Hend.
      destruct (@find_if_split _ (fun q : PlaylistTreeModelNode => hasAddress item q)
                  (entries pl)) as (pre & x & post & Hsplit & Hlen & _).
      { pose proof (find_if_le (fun q : PlaylistTreeModelNode => hasAddress item q)
                      (entries pl)). fold it in H. lia. }
      fold it in Hlen. rewrite <- Hlen, Hsplit, erase_app_here in Hes.
      exists (map (fun n : PlaylistTreeModelNode => self n) pre), (self x),
             (map (fun n : PlaylistTreeModelNode => self n) post).
      unfold songOrder. rewrite Hes, Hsplit, !map_app. auto.
  - right. right. left. unfold songOrder, Clear. cbv zeta. now rewrite Refresh_entries.
  - right. right. right. apply songOrder_skeleton.
    now apply TrySetActiveSong_inv in H.
  - right. right. right. apply songOrder_skeleton.
    now apply SetItemTag_inv in H.
Qed.

Lemma song_order_is_insertion_order_witness :
  exists pl', step tuneAndOther pl' /\
    songOrder tuneAndOther = [1; 2] /\ songOrder pl' = [2] /\
    ((exists a, songOrder pl' = songOrder tuneAndOther ++ [a]) \/
     (exists pre x post, songOrder tuneAndOther = pre ++ x :: post /\
                         songOrder pl' = pre ++ post) \/
     songOrder pl' = [] \/
     songOrder pl' = songOrder tuneAndOther).
Proof.
  destruct (Remove 1 tuneAndOther) as [pl'|] eqn:Hrem; [|vm_compute in Hrem; discriminate].
  assert (Hstep : step tuneAndOther pl') by (eapply step_Remove; exact Hrem).
  exists pl'. split; [exact Hstep|]. split; [reflexivity|].
  split; [vm_compute in Hrem; injection Hrem as <-; reflexivity|].
  exact (song_order_is_insertion_order Hstep).
Defined.

(** ** Looking up the subsongs that were added *)

(** X9. When subsongs are added to a song that had none and that is the
    first song found under its file path, [Playlist::GetSubsong] finds them
    again by number: number k+1 is the subsong created for the k-th
    duration; a number below zero or above the number of durations yields
    null. *)
Theorem subsongs_added_are_found (durations : list Z) (parent : ptr) (pl pl' : Playlist)
    (song : PlaylistTreeModelNode) :
  find (fun n : PlaylistTreeModelNode => hasAddress parent n) (entries pl) = Some song ->
  GetSong pl (filepath song) = Some song ->
  _children song = [] ->
  (Z.of_nat (length durations) < 2 ^ 31)%Z ->
  AddSubsongs durations parent pl = Some pl' ->
  (forall k d, nth_error durations k = Some d ->
     exists c,
       Playlist_GetSubsong pl' (filepath song) (Z.of_nat (S k)) = Some (subsongNode c) /\
       duration c = d /\ defaultSubsong c = Z.of_nat (S k) /\ _parent c = Some (self song)) /\
  (forall i, (i < 0 \/ Z.of_nat (length durations) < i)%Z ->
     Playlist_GetSubsong pl' (filepath song) i = None).
Proof.
  intros Hparent Hfound Hnone Hint Hadd.
  set (created := AddSubsongs_loop durations 0 song (nextAddress pl)).
  assert (Hlen : length created = length durations) by apply AddSubsongs_loop_length.
  assert (Hidx : map defaultSubsong created = map Z.of_nat (seq 1 (length created))).
  { rewrite Hlen. apply (AddSubsongs_loop_indices durations 0). exact Hint. }
  assert (Hdur : map duration created = durations) by apply AddSubsongs_loop_duration.
  assert (Hfrom : Forall (createdFrom song) created) by apply AddSubsongs_loop_createdFrom.
  assert (Hsong' : GetSong pl' (filepath song) = Some (mkNode song created)).
  { unfold AddSubsongs in Hadd. destruct durations as [|d0 rest].
    - injection Hadd as <-. rewrite Hfound. destruct song as [fs cs]. simpl in *.
      now subst cs.
    - cbn [length Nat.eqb] in Hadd. rewrite Hparent in Hadd. injection Hadd as <-.
      unfold GetSong in *. members. unfold adopt.
      rewrite find_map_same by (intros x; now destruct (hasAddress parent x)).
      rewrite Hfound. simpl.
      apply find_some in Hparent. destruct Hparent as [_ Haddr].
      rewrite Haddr, Hnone. reflexivity. }
  assert (Hnumbered : contiguousIndices (mkNode song created)) by exact Hidx.
  split.
  - intros k d Hk.
    destruct (nth_error created k) as [c|] eqn:Hc.
    + exists c. unfold Playlist_GetSubsong. rewrite Hsong'.
      replace (Z.eqb (Z.of_nat (S k)) 0) with false by (symmetry; apply Z.eqb_neq; lia).
      rewrite (@GetSubsong_at (mkNode song created) k c Hnumbered Hc).
      split; [reflexivity|]. split.
      * apply (map_nth_error duration) in Hc. rewrite Hdur, Hk in Hc. congruence.
      * split; [exact (index_at defaultSubsong created 1 k Hidx Hc)|].
        rewrite Forall_forall in Hfrom. apply nth_error_In in Hc. apply (Hfrom c Hc).
    + exfalso. apply nth_error_None in Hc.
      assert (k < length durations) by (apply nth_error_Some; congruence). lia.
  - intros i Hi. unfold Playlist_GetSubsong. rewrite Hsong'.
    replace (Z.eqb i 0) with false by (symmetry; apply Z.eqb_neq; lia).
    unfold GetSubsong. cbn [_children]. rewrite find_nothing; [reflexivity|].
    intros c Hc. apply Z.eqb_neq. intros Heq.
    apply (in_map defaultSubsong) in Hc. rewrite Hidx, Hlen in Hc.
    apply in_map_iff in Hc. destruct Hc as (n & Hn & Hin). apply in_seq in Hin. lia.
Qed.

Lemma subsongs_added_are_found_witness :
  AddSubsongs [100; 200; 300]%Z 1 tuneAlone = Some tuneWithSubsongs /\
  (exists c, Playlist_GetSubsong tuneWithSubsongs "tune.sid" 2 = Some (subsongNode c) /\
             duration c = 200%Z) /\
  Playlist_GetSubsong tuneWithSubsongs "tune.sid" 4 = None.
Proof.
  assert (Hadd : AddSubsongs [100; 200; 300]%Z 1 tuneAlone = Some tuneWithSubsongs)
    by reflexivity.
  destruct (@subsongs_added_are_found [100; 200; 300]%Z 1 tuneAlone tuneWithSubsongs
              (mkNode (newNode 1 None "Tune" "tune.sid" 1 0 "Hubbard"
                               RomRequirement.None true) [])
              eq_refl eq_refl eq_refl eq_refl Hadd) as [Hfound Hbeyond].
  split; [exact Hadd|]. split.
  - destruct (Hfound 1 200%Z eq_refl) as (c & Hc & Hd & _). exists c. auto.
  - apply (Hbeyond 4%Z). right. simpl. lia.
Defined.

(** ** The columns never go stale *)

Lemma shouldHide_authors (es es' : list PlaylistTreeModelNode) :
  authors es = authors es' -> shouldHide es = shouldHide es'.
Proof.
  assert (H : forall l, shouldHide l =
            if 1 <? length (authors l) then
              match authors l with
              | front :: _ => forallb (fun b => String.eqb b front) (authors l)
              | [] => true
              end
            else true).
  { assert (Hmap : forall (a : wxString) (l : list PlaylistTreeModelNode),
              forallb (fun node : PlaylistTreeModelNode => String.eqb (author node) a) l
              = forallb (fun b => String.eqb b a)
                        (map (fun n : PlaylistTreeModelNode => author n) l)).
    { intros a l. induction l as [|x t IH]; simpl; [reflexivity|]. now rewrite IH. }
    intros l. unfold shouldHide, authors. rewrite length_map.
    destruct l as [|front rest]; [reflexivity|].
    rewrite (Hmap (author front)). reflexivity. }
  intros Heq. now rewrite !H, Heq.
Qed.

Lemma authors_modify (p : ptr) (f : NodeFields -> NodeFields)
    (es : list PlaylistTreeModelNode) :
  keepsAuthor f -> authors (modify p f es) = authors es.
Proof.
  intros Hf. unfold authors, modify. rewrite map_map. apply map_ext.
  intros n. simpl. destruct (hasAddress p n); auto.
Qed.

Lemma authors_modifyChildren (p : ptr) (f : NodeFields -> NodeFields)
    (es : list PlaylistTreeModelNode) :
  authors (modifyChildren p f es) = authors es.
Proof.
  unfold authors, modifyChildren. rewrite map_map. apply map_ext.
  intros n. now destruct (hasAddress p n).
Qed.

Lemma keepsAuthor_SetTag (t : ItemTag.t) : keepsAuthor (SetTag t).
Proof. intros n. reflexivity. Qed.

Lemma keepsAuthor_SetIconId (i : PlaylistIconId.t) : keepsAuthor (SetIconId i).
Proof. intros n. reflexivity. Qed.

Lemma keepsAuthor_onItemAttr (g : wxDataViewItemAttr -> wxDataViewItemAttr) :
  keepsAuthor (onItemAttr g).
Proof. intros n. reflexivity. Qed.

Lemma keepsAuthor_ResetItemAttr : keepsAuthor ResetItemAttr.
Proof. intros n. reflexivity. Qed.

#[local] Hint Resolve keepsAuthor_SetTag keepsAuthor_SetIconId
  keepsAuthor_onItemAttr keepsAuthor_ResetItemAttr : store.

Lemma TrySetActiveSong_columns (node : ptr) (autoexpand r : bool) (pl pl' : Playlist) :
  TrySetActiveSong node autoexpand pl = Some (r, pl') ->
  authors (entries pl') = authors (entries pl) /\
  authorHidden pl' = authorHidden pl /\
  placeholderLastHidden pl' = placeholderLastHidden pl.
Proof.
  unfold TrySetActiveSong, andThen. intros H.
  destruct (deref node (entries pl)) as [n|]; [|discriminate].
  destruct (negb (IsPlayable n)).
  { injection H as <- <-. auto. }
  along; members; rewrite ?authors_modify by auto with store; auto.
Qed.

Lemma SetItemTag_columns (node : ptr) (tag : ItemTag.t) (force : bool) (pl pl' : Playlist) :
  SetItemTag node tag force pl = Some pl' ->
  authors (entries pl') = authors (entries pl) /\
  authorHidden pl' = authorHidden pl /\
  placeholderLastHidden pl' = placeholderLastHidden pl.
Proof.
  unfold SetItemTag, andThen. intros H.
  destruct (deref node (entries pl)) as [n|]; [|discriminate].
  destruct (negb force && negb (IsPlayable n)).
  { injection H as <-. auto. }
  along; members;
    rewrite ?authors_modifyChildren, ?authors_modify by auto with store; auto.
Qed.

Lemma Refresh_columnsInSync (pl : Playlist) :
  placeholderLastHidden pl = negb (authorHidden pl) ->
  columnsInSync (snd (RefreshAuthorColumnVisibility pl)).
Proof.
  intros Hplaceholder. unfold columnsInSync. rewrite Refresh_entries, Refresh_authorHidden.
  split; [reflexivity|]. unfold RefreshAuthorColumnVisibility.
  destruct (Bool.eqb (authorHidden pl) (shouldHide (entries pl))) eqn:Hb; simpl.
  - apply Bool.eqb_prop in Hb. now rewrite <- Hb.
  - reflexivity.
Qed.

Lemma step_columnsInSync (pl pl' : Playlist) :
  columnsInSync pl -> step pl pl' -> columnsInSync pl'.
Proof.
  intros [Hauthor Hplaceholder] Hstep. destruct Hstep.
  - split; assumption.
  - unfold AddMainSong. cbv zeta. cbn [snd]. now apply Refresh_columnsInSync.
  - unfold AddSubsongs in H. destruct (length durations =? 0);
      [injection H as <-; split; assumption|].
    destruct (find _ (entries pl)); [|discriminate]. injection H as <-.
    split; members; [|assumption].
    rewrite Hauthor. apply shouldHide_authors. unfold authors.
    rewrite <- !(map_map fields (fun x => author x)), adopt_roots. reflexivity.
  - unfold Remove in H.
    destruct (deref item (entries pl)); [|discriminate].
    destruct (GetActiveSong pl);
      [destruct (deref _ (entries pl)); [|discriminate]; destruct (String.eqb _ _)|];
      injection H as <-; apply Refresh_columnsInSync;
      destruct (_ =? _); assumption.
  - unfold Clear. cbv zeta. now apply Refresh_columnsInSync.
  - apply TrySetActiveSong_columns in H. destruct H as (Ha & Hh & Hp).
    split; [|now rewrite Hh, Hp].
    rewrite Hh, Hauthor. now apply shouldHide_authors.
  - apply SetItemTag_columns in H. destruct H as (Ha & Hh & Hp).
    split; [|now rewrite Hh, Hp].
    rewrite Hh, Hauthor. now apply shouldHide_authors.
Qed.

(** X10. In every reachable state the author column is hidden exactly
    when there are fewer than two songs or all songs have the author of the
    first one, and the placeholder column is hidden exactly when the author
    column is shown: no member function leaves the columns stale. *)
Theorem columns_never_stale (pl : Playlist) :
  reachable pl ->
  authorHidden pl = shouldHide (entries pl) /\
  placeholderLastHidden pl = negb (authorHidden pl) /\
  (authorHidden pl = true <->
   (length (entries pl) < 2 \/
    forall first n : PlaylistTreeModelNode,
      hd_error (entries pl) = Some first -> In n (entries pl) -> author n = author first)).
Proof.
  intros Hreach.
  assert (Hsync : columnsInSync pl).
  { induction Hreach; [split; reflexivity|eapply step_columnsInSync; eauto]. }
  destruct Hsync as [Hauthor Hplaceholder].
  repeat split; auto; rewrite Hauthor; apply shouldHide_true.
Qed.

Lemma columns_never_stale_witness :
  reachable twoAuthors /\
  authorHidden twoAuthors = false /\ placeholderLastHidden twoAuthors = true /\
  shouldHide (entries twoAuthors) = false.
Proof.
  destruct (columns_never_stale reachable_twoAuthors) as (Hauthor & Hplaceholder & _).
  split; [apply reachable_twoAuthors|].
  split; [reflexivity|]. split; [rewrite Hplaceholder; reflexivity|].
  rewrite <- Hauthor. reflexivity.
Defined.

(** ** Reading back what was written *)

Lemma flat_map_children_modify (q : ptr) (f : NodeFields -> NodeFields)
    (es : list PlaylistTreeModelNode) :
  flat_map _children (modify q f es)
  = map (fun x => if hasAddress q x then f x else x) (flat_map _children es).
Proof.
  unfold modify. induction es as [|n t IH]; simpl; [reflexivity|].
  now rewrite IH, map_app.
Qed.

(** Reading the node at [p] after a write at [q]: the write is seen
    exactly when the two addresses are the same. *)
Lemma deref_modify (p q : ptr) (f : NodeFields -> NodeFields)
    (es : list PlaylistTreeModelNode) (n : PlaylistTreeModelNode) :
  keepsSelf f ->
  deref p es = Some n ->
  exists n', deref p (modify q f es) = Some n' /\
             fields n' = if Nat.eqb p q then f n else fields n.
Proof.
  intros Hf Hn. pose proof (deref_In _ _ Hn) as [_ Hself].
  assert (Hupd : forall x, hasAddress p (if hasAddress q x then f x else x) = hasAddress p x).
  { intros x. unfold hasAddress. destruct (self x =? q); [now rewrite Hf|reflexivity]. }
  assert (Hhere : hasAddress q n = Nat.eqb p q) by (unfold hasAddress; now rewrite Hself).
  unfold deref in *. rewrite flat_map_children_modify.
  unfold modify at 1.
  rewrite (find_map_same (fun m : PlaylistTreeModelNode => hasAddress p m))
    by (intros x; apply Hupd).
  destruct (find (fun m : PlaylistTreeModelNode => hasAddress p m) es) as [r|].
  - injection Hn as <-. simpl. eexists. split; [reflexivity|]. simpl. now rewrite Hhere.
  - rewrite (find_map_same (hasAddress p)) by apply Hupd.
    destruct (find (hasAddress p) (flat_map _children es)) as [c|]; [|discriminate].
    injection Hn as <-. simpl in *. eexists. split; [reflexivity|]. simpl. now rewrite Hhere.
Qed.

(** Reading the node at [p] after a write to the subsongs of the node at
    [q]: the node is as before, or it is one of the subsongs written. *)
Lemma deref_modifyChildren (p q : ptr) (f : NodeFields -> NodeFields)
    (es : list PlaylistTreeModelNode) (n : PlaylistTreeModelNode) :
  keepsSelf f ->
  deref p es = Some n ->
  exists n', deref p (modifyChildren q f es) = Some n' /\
             (fields n' = fields n \/ fields n' = f n).
Proof.
  intros Hf Hn. unfold deref in *. unfold modifyChildren at 1.
  rewrite (find_map_same (fun m : PlaylistTreeModelNode => hasAddress p m))
    by (intros x; now destruct (hasAddress q x)).
  destruct (find (fun m : PlaylistTreeModelNode => hasAddress p m) es) as [r|].
  - injection Hn as <-. simpl. eexists. split; [reflexivity|]. left.
    now destruct (hasAddress q r).
  - destruct (find (hasAddress p) (flat_map _children es)) as [c|] eqn:Hc; [|discriminate].
    injection Hn as <-. simpl. clear - Hf Hc.
    assert (H : exists c', find (hasAddress p) (flat_map _children (modifyChildren q f es))
                           = Some c' /\ (c' = c \/ c' = f c)).
    { induction es as [|m t IH]; [discriminate|].
      simpl in Hc. rewrite find_app_first in Hc.
      cbn [modifyChildren map flat_map]. fold (modifyChildren q f t).
      rewrite find_app_first.
      destruct (find (hasAddress p) (_children m)) as [d|] eqn:Hd.
      - injection Hc as <-. destruct (hasAddress q m); cbn [_children].
        + rewrite (find_map_same (hasAddress p))
            by (intros x; unfold hasAddress; now rewrite Hf).
          rewrite Hd. simpl. eauto.
        + rewrite Hd. eauto.
      - assert (Hnone : find (hasAddress p)
                          (_children (if hasAddress q m
                                      then mkNode m (map f (_children m)) else m)) = None).
        { destruct (hasAddress q m); cbn [_children]; [|exact Hd].
          rewrite (find_map_same (hasAddress p))
            by (intros x; unfold hasAddress; now rewrite Hf).
          now rewrite Hd. }
        rewrite Hnone. now apply IH. }
    destruct H as (c' & Hfind & Hor). rewrite Hfind. simpl. eexists. split; [reflexivity|].
    simpl. destruct Hor as [->| ->]; auto.
Qed.

Lemma keepsSelf_SetTag (t : ItemTag.t) : keepsSelf (SetTag t).
Proof. intros n. reflexivity. Qed.

Lemma keepsSelf_SetIconId (i : PlaylistIconId.t) : keepsSelf (SetIconId i).
Proof. intros n. reflexivity. Qed.

Lemma keepsSelf_onItemAttr (g : wxDataViewItemAttr -> wxDataViewItemAttr) :
  keepsSelf (onItemAttr g).
Proof. intros n. reflexivity. Qed.

Lemma keepsSelf_ResetItemAttr : keepsSelf ResetItemAttr.
Proof. intros n. reflexivity. Qed.

#[local] Hint Resolve keepsSelf_SetTag keepsSelf_SetIconId
  keepsSelf_onItemAttr keepsSelf_ResetItemAttr : store.

Lemma nodeAt_modify (P P' : NodeFields -> Prop) (p q : ptr) (f : NodeFields -> NodeFields)
    (es : list PlaylistTreeModelNode) :
  keepsSelf f ->
  (forall x, P x -> P' (f x)) -> (forall x, P x -> P' x) ->
  nodeAt P p es -> nodeAt P' p (modify q f es).
Proof.
  intros Hf Hwritten Hkept (n & Hn & HP).
  destruct (deref_modify p q es Hf Hn) as (n' & Hn' & Hfields).
  exists n'. split; [exact Hn'|]. rewrite Hfields. destruct (p =? q); auto.
Qed.

Lemma nodeAt_modify_there (P P' : NodeFields -> Prop) (p : ptr) (f : NodeFields -> NodeFields)
    (es : list PlaylistTreeModelNode) :
  keepsSelf f ->
  (forall x, P x -> P' (f x)) ->
  nodeAt P p es -> nodeAt P' p (modify p f es).
Proof.
  intros Hf Hwritten (n & Hn & HP).
  destruct (deref_modify p p es Hf Hn) as (n' & Hn' & Hfields).
  exists n'. split; [exact Hn'|]. rewrite Hfields, Nat.eqb_refl. auto.
Qed.

Lemma nodeAt_modifyChildren (P P' : NodeFields -> Prop) (p q : ptr)
    (f : NodeFields -> NodeFields) (es : list PlaylistTreeModelNode) :
  keepsSelf f ->
  (forall x, P x -> P' (f x)) -> (forall x, P x -> P' x) ->
  nodeAt P p es -> nodeAt P' p (modifyChildren q f es).
Proof.
  intros Hf Hwritten Hkept (n & Hn & HP).
  destruct (deref_modifyChildren p q es Hf Hn) as (n' & Hn' & [Hfields|Hfields]);
    exists n'; (split; [exact Hn'|]); rewrite Hfields; auto.
Qed.

(** ** Making an entry the active one *)

(** X11. A defined call of [TrySetActiveSong] answers whether the entry
    is playable. When it is, the entry is the active one afterwards and its
    visual-state payload is bold; its tag and icon are as before. *)
Theorem TrySetActiveSong_playable (node : ptr) (autoexpand r : bool) (pl pl' : Playlist)
    (n : PlaylistTreeModelNode) :
  deref node (entries pl) = Some n ->
  TrySetActiveSong node autoexpand pl = Some (r, pl') ->
  r = IsPlayable n /\
  (r = true ->
   GetActiveSong pl' = Some node /\
   exists n', deref node (entries pl') = Some n' /\
     (_tag n' = _tag n /\ _iconId n' = _iconId n) /\ attrBold (_attr n') = true).
Proof.
  intros Hnode H.
  set (Q := fun x : NodeFields => _tag x = _tag n /\ _iconId x = _iconId n).
  set (B := fun x : NodeFields => Q x /\ attrBold (_attr x) = true).
  assert (Hbase : nodeAt Q node (entries pl)) by (exists n; split; [exact Hnode|split; reflexivity]).
  assert (HQ : forall x, Q x -> Q (ResetItemAttr x)) by (intros x Hx; exact Hx).
  assert (HQB : forall x, Q x -> B (onItemAttr (SetBold true) x))
    by (intros x Hx; split; [exact Hx|reflexivity]).
  assert (HB : forall x, B x ->
            B (onItemAttr (fun attr => SetColour SysColourHotlight (SetBold true attr)) x))
    by (intros x [Hx _]; split; [exact Hx|reflexivity]).
  unfold TrySetActiveSong, andThen in H. rewrite Hnode in H.
  destruct (IsPlayable n).
  2:{ injection H as <- <-. split; [reflexivity|discriminate]. }
  cbn [negb] in H.
  along; members; (split; [reflexivity|]); intros _; (split; [reflexivity|]);
    match goal with
    | |- exists n', deref ?p ?es = Some n' /\ _ => change (nodeAt B p es)
    end;
    try match goal with
        | |- nodeAt B _ (modify _ _ (modify _ (onItemAttr (SetBold true)) _)) =>
            apply (@nodeAt_modify B B); [auto with store|exact HB|auto|]
        end;
    (apply (@nodeAt_modify_there Q B); [auto with store|exact HQB|]);
    repeat (apply (@nodeAt_modify Q Q); [auto with store|exact HQ|auto|]);
    exact Hbase.
Qed.

Lemma TrySetActiveSong_playable_witness :
  (exists n, deref 3 (entries tuneWithSubsongs) = Some n /\ IsPlayable n = true) /\
  TrySetActiveSong 3 false tuneWithSubsongs = Some (true, tuneSecondSubsongActive) /\
  GetActiveSong tuneSecondSubsongActive = Some 3 /\
  exists n', deref 3 (entries tuneSecondSubsongActive) = Some n' /\
             attrBold (_attr n') = true.
Proof.
  assert (Hcall : TrySetActiveSong 3 false tuneWithSubsongs
                  = Some (true, tuneSecondSubsongActive)) by reflexivity.
  assert (Hnode : deref 3 (entries tuneWithSubsongs)
                  = Some (subsongNode
                            (newNode 3 (Some 1) "  Tune: Subsong 2" "tune.sid" 2 200 ""
                                     RomRequirement.None true))) by reflexivity.
  destruct (TrySetActiveSong_playable _ _ _ Hnode Hcall) as [_ Hactive].
  destruct (Hactive eq_refl) as (Hact & n' & Hn' & _ & Hbold).
  split; [eexists; split; [exact Hnode|reflexivity]|].
  split; [exact Hcall|]. split; [exact Hact|]. exists n'. auto.
Defined.

(** ** Tagging *)

Lemma SetItemTag_effect (node : ptr) (tag : ItemTag.t) (force : bool) (pl pl' : Playlist)
    (n : PlaylistTreeModelNode) :
  deref node (entries pl) = Some n ->
  force = true \/ IsPlayable n = true ->
  SetItemTag node tag force pl = Some pl' ->
  GetActiveSong pl' = GetActiveSong pl /\
  exists n', deref node (entries pl') = Some n' /\
    _tag n' = tag /\
    (tag = ItemTag.ShortDuration -> _iconId n' = PlaylistIconId.SkipShort) /\
    (tag = ItemTag.Blacklisted -> _iconId n' = PlaylistIconId.RemoveSong) /\
    (tag <> ItemTag.Normal -> _attr n' = if force then defaultAttr else _attr n).
Proof.
  intros Hnode Hallowed H.
  split; [now apply SetItemTag_inv in H|].
  assert (Hguard : negb force && negb (IsPlayable n) = false)
    by (destruct Hallowed as [-> | ->]; [reflexivity|apply Bool.andb_false_r]).
  assert (Hbase : nodeAt (fun x => x = fields n) node (entries pl))
    by (exists n; auto).
  unfold SetItemTag, andThen in H. rewrite Hnode, Hguard in H.
  set (tagged := fun x : NodeFields =>
                   x = if force then ResetItemAttr (SetTag tag n) else SetTag tag n).
  assert (Htagged : nodeAt tagged node
            (if force then modify node ResetItemAttr (modify node (SetTag tag) (entries pl))
             else modify node (SetTag tag) (entries pl))).
  { unfold tagged. destruct force.
    - apply (@nodeAt_modify_there (fun x => x = SetTag tag n)); [auto with store| |].
      + now intros x ->.
      + apply (@nodeAt_modify_there (fun x => x = fields n)); [auto with store| |exact Hbase].
        now intros x ->.
    - apply (@nodeAt_modify_there (fun x => x = fields n)); [auto with store| |exact Hbase].
      now intros x ->. }
  destruct tag.
  - (* Normal: every later write keeps the tag *)
    set (T := fun x : NodeFields => _tag x = ItemTag.Normal).
    clear Htagged.
    assert (Hconclude : forall es, nodeAt T node es ->
              exists n', deref node es = Some n' /\
                _tag n' = ItemTag.Normal /\
                (ItemTag.Normal = ItemTag.ShortDuration ->
                 _iconId n' = PlaylistIconId.SkipShort) /\
                (ItemTag.Normal = ItemTag.Blacklisted ->
                 _iconId n' = PlaylistIconId.RemoveSong) /\
                (ItemTag.Normal <> ItemTag.Normal ->
                 _attr n' = if force then defaultAttr else _attr n)).
    { intros es (x & Hx & Htag). exists x. repeat split; auto; try discriminate. congruence. }
    along; members; apply Hconclude;
      repeat match goal with
             | |- nodeAt T _ (modifyChildren _ _ _) =>
                 apply (@nodeAt_modifyChildren T T); [auto with store|auto|auto|]
             | |- nodeAt T _ (modify _ _ (modify _ _ _)) =>
                 apply (@nodeAt_modify T T); [auto with store|auto|auto|]
             end;
      (apply (@nodeAt_modify_there (fun x => x = fields n) T);
       [auto with store|now intros x ->|exact Hbase]).
  - injection H as <-. members.
    destruct (@nodeAt_modify_there tagged
                (fun x => x = SetIconId PlaylistIconId.SkipShort
                                (if force then ResetItemAttr (SetTag ItemTag.ShortDuration n)
                                 else SetTag ItemTag.ShortDuration n))
                node (SetIconId PlaylistIconId.SkipShort) _
                (keepsSelf_SetIconId _) ltac:(now intros x ->) Htagged)
      as (n' & Hn' & Hfields).
    exists n'. split; [exact Hn'|]. rewrite Hfields.
    destruct force; repeat split; discriminate.
  - injection H as <-. members.
    destruct (@nodeAt_modify_there tagged
                (fun x => x = SetIconId PlaylistIconId.RemoveSong
                                (if force then ResetItemAttr (SetTag ItemTag.Blacklisted n)
                                 else SetTag ItemTag.Blacklisted n))
                node (SetIconId PlaylistIconId.RemoveSong) _
                (keepsSelf_SetIconId _) ltac:(now intros x ->) Htagged)
      as (n' & Hn' & Hfields).
    exists n'. split; [exact Hn'|]. rewrite Hfields.
    destruct force; repeat split; discriminate.
Qed.

(** X12. A call of [SetItemTag] that is forced, or made on a playable
    entry, leaves the entry with the tag given and does not touch the active
    item. For the tags ShortDuration and Blacklisted the icon becomes the
    skip and the removal icon, and the visual-state payload is reset when
    the call is forced and kept as it was otherwise. *)
Theorem SetItemTag_applies (node : ptr) (tag : ItemTag.t) (force : bool) (pl pl' : Playlist)
    (n : PlaylistTreeModelNode) :
  deref node (entries pl) = Some n ->
  force = true \/ IsPlayable n = true ->
  SetItemTag node tag force pl = Some pl' ->
  GetActiveSong pl' = GetActiveSong pl /\
  exists n', deref node (entries pl') = Some n' /\
    _tag n' = tag /\
    (tag = ItemTag.ShortDuration -> _iconId n' = PlaylistIconId.SkipShort) /\
    (tag = ItemTag.Blacklisted -> _iconId n' = PlaylistIconId.RemoveSong) /\
    (tag <> ItemTag.Normal -> _attr n' = if force then defaultAttr else _attr n).
Proof. exact (@SetItemTag_effect node tag force pl pl' n). Qed.

(** Blacklisting "Tune" by a forced call. *)
Lemma SetItemTag_applies_witness :
  SetItemTag 1 ItemTag.Blacklisted true tuneAlone = Some tuneBlacklisted /\
  exists n', deref 1 (entries tuneBlacklisted) = Some n' /\
    _tag n' = ItemTag.Blacklisted /\ _iconId n' = PlaylistIconId.RemoveSong /\
    _attr n' = defaultAttr.
Proof.
  assert (Hcall : SetItemTag 1 ItemTag.Blacklisted true tuneAlone = Some tuneBlacklisted)
    by reflexivity.
  split; [exact Hcall|].
  destruct (@SetItemTag_applies 1 ItemTag.Blacklisted true tuneAlone tuneBlacklisted
              (mkNode (newNode 1 None "Tune" "tune.sid" 1 0 "Hubbard"
                               RomRequirement.None true) [])
              eq_refl (or_introl eq_refl) Hcall)
    as (_ & n' & Hn' & Htag & _ & Hicon & Hattr).
  exists n'. repeat split; auto. apply Hattr. discriminate.
Defined.

(** X13. Once an entry has been blacklisted by a call of [SetItemTag]
    that was forced or made while it was playable, it is not playable any
    more: [TrySetActiveSong] on it answers false and changes nothing, and
    every call of [SetItemTag] on it that is not forced changes nothing. *)
Theorem blacklisted_entry_is_refused (node : ptr) (force autoexpand : bool)
    (pl pl' : Playlist) (n : PlaylistTreeModelNode) :
  deref node (entries pl) = Some n ->
  force = true \/ IsPlayable n = true ->
  SetItemTag node ItemTag.Blacklisted force pl = Some pl' ->
  (exists n', deref node (entries pl') = Some n' /\
              IsPlayable n' = false /\ IsAutoPlayable n' = false) /\
  TrySetActiveSong node autoexpand pl' = Some (false, pl') /\
  (forall tag, SetItemTag node tag false pl' = Some pl').
Proof.
  intros Hnode Hallowed H.
  destruct (SetItemTag_effect _ _ _ Hnode Hallowed H) as (_ & n' & Hn' & Htag & _).
  assert (Hplayable : IsPlayable n' = false)
    by (unfold IsPlayable; rewrite Htag; apply Bool.andb_false_r).
  split; [exists n'; repeat split; auto; unfold IsAutoPlayable; now rewrite Hplayable|].
  split.
  - unfold TrySetActiveSong, andThen. now rewrite Hn', Hplayable.
  - intros tag. unfold SetItemTag, andThen. now rewrite Hn', Hplayable.
Qed.

Lemma blacklisted_entry_is_refused_witness :
  SetItemTag 1 ItemTag.Blacklisted true tuneAlone = Some tuneBlacklisted /\
  TrySetActiveSong 1 true tuneBlacklisted = Some (false, tuneBlacklisted) /\
  SetItemTag 1 ItemTag.Normal false tuneBlacklisted = Some tuneBlacklisted.
Proof.
  assert (Hcall : SetItemTag 1 ItemTag.Blacklisted true tuneAlone = Some tuneBlacklisted)
    by reflexivity.
  split; [exact Hcall|].
  destruct (@blacklisted_entry_is_refused 1 true true tuneAlone tuneBlacklisted
              (mkNode (newNode 1 None "Tune" "tune.sid" 1 0 "Hubbard"
                               RomRequirement.None true) [])
              eq_refl (or_introl eq_refl) Hcall)
    as (_ & Hactive & Htag).
  split; [exact Hactive|apply Htag].
Defined.

(** The subsongs of the node at [p] after a write to all of them. *)
Lemma deref_modifyChildren_there (P : NodeFields -> Prop) (p : ptr)
    (f : NodeFields -> NodeFields) (es : list PlaylistTreeModelNode)
    (n : PlaylistTreeModelNode) :
  keepsSelf f ->
  (forall c, P (f c)) ->
  deref p es = Some n ->
  exists n', deref p (modifyChildren p f es) = Some n' /\ Forall P (_children n').
Proof.
  intros Hf HP Hn. destruct (deref_modifyChildren p p es Hf Hn) as (n' & Hn' & _).
  exists n'. split; [exact Hn'|].
  unfold deref in Hn'. unfold modifyChildren at 1 in Hn'.
  rewrite (find_map_same (fun m : PlaylistTreeModelNode => hasAddress p m)) in Hn'
    by (intros x; destruct (hasAddress p x) eqn:E; simpl; auto).
  destruct (find (fun m : PlaylistTreeModelNode => hasAddress p m) es) as [r|] eqn:Hr.
  - apply find_some in Hr. destruct Hr as [_ Hr]. simpl in Hn'. rewrite Hr in Hn'.
    injection Hn' as <-. simpl. apply Forall_forall. intros c Hc.
    apply in_map_iff in Hc. destruct Hc as (c0 & <- & _). apply HP.
  - destruct (find (hasAddress p) _); [|discriminate].
    injection Hn' as <-. constructor.
Qed.

(** X14. A call of [SetItemTag] with the tag Normal that is forced, or
    made on a playable entry, resolves the icon: a song gets the chip icon
    when it has a ROM requirement and no icon otherwise; a subsong gets the
    default-subsong indicator when its number is its parent's default
    subsong and no icon otherwise, whatever its ROM requirement. An entry
    with a ROM requirement whose playable flag is clear is struck through
    and coloured by the kind of ROM, and so is every subsong it owns. *)
Theorem SetItemTag_Normal_styles (node : ptr) (force : bool) (pl pl' : Playlist)
    (n : PlaylistTreeModelNode) (parentDefault : Z) :
  deref node (entries pl) = Some n ->
  force = true \/ IsPlayable n = true ->
  (forall parent, _parent n = Some parent ->
     nodeAt (fun p => defaultSubsong p = parentDefault) parent (entries pl)) ->
  SetItemTag node ItemTag.Normal force pl = Some pl' ->
  exists n', deref node (entries pl') = Some n' /\
    _iconId n' = normalIcon n parentDefault /\
    (RomRequirement.eqb (romRequirement n) RomRequirement.None = false ->
     _playable n = false ->
     (attrStrikethrough (_attr n') = true /\
      attrColour (_attr n') = Some (unplayableColour n)) /\
     Forall (fun c => attrStrikethrough (_attr c) = true /\
                      attrColour (_attr c) = Some (unplayableColour n)) (_children n')).
Proof.
  intros Hnode Hallowed Hparent H.
  assert (Hguard : negb force && negb (IsPlayable n) = false)
    by (destruct Hallowed as [-> | ->]; [reflexivity|apply Bool.andb_false_r]).
  assert (Hbase : nodeAt (fun x => x = fields n) node (entries pl))
    by (exists n; auto).
  unfold SetItemTag, andThen in H. rewrite Hnode, Hguard in H. cbv zeta in H.
  set (F := if force then ResetItemAttr (SetTag ItemTag.Normal n)
            else SetTag ItemTag.Normal n).
  set (es2 := if force
              then modify node ResetItemAttr (modify node (SetTag ItemTag.Normal) (entries pl))
              else modify node (SetTag ItemTag.Normal) (entries pl)) in *.
  assert (Htagged : nodeAt (fun x => x = F) node es2).
  { unfold F, es2. destruct force.
    - apply (@nodeAt_modify_there (fun x => x = SetTag ItemTag.Normal n)); [auto with store| |].
      + now intros x ->.
      + apply (@nodeAt_modify_there (fun x => x = fields n)); [auto with store| |exact Hbase].
        now intros x ->.
    - apply (@nodeAt_modify_there (fun x => x = fields n)); [auto with store| |exact Hbase].
      now intros x ->. }
  assert (Hparent2 : forall parent, _parent n = Some parent ->
            nodeAt (fun p => defaultSubsong p = parentDefault) parent es2).
  { intros parent Hp. specialize (Hparent parent Hp). unfold es2. destruct force;
      repeat (apply (@nodeAt_modify (fun p => defaultSubsong p = parentDefault)
                       (fun p => defaultSubsong p = parentDefault));
              [auto with store|intros ? Hx; exact Hx|auto|]); exact Hparent. }
  destruct Htagged as (n2 & Hn2 & HF).
  assert (Hany : nodeAt (fun _ => True) node es2) by (exists n2; auto).
  rewrite Hn2, HF in H.
  assert (HFp : _parent F = _parent n /\ defaultSubsong F = defaultSubsong n /\
                romRequirement F = romRequirement n /\ IsPlayable F = _playable n /\
                type F = type n).
  { unfold F, IsPlayable, type. destruct force; simpl; rewrite ?Bool.andb_true_r; auto. }
  destruct HFp as (E1 & E2 & E3 & E4 & E5). rewrite ?E1, ?E2, ?E3, ?E4, ?E5 in H.
  clearbody es2. clear HF E1 E2 E3 E4 E5 Hn2 n2 F.
  fold (unplayableColour n) in H.
  set (style := onItemAttr (fun attr : wxDataViewItemAttr =>
                  SetStrikethrough true (SetColour (unplayableColour n) attr))) in *.
  assert (Hchain : forall (icon : PlaylistIconId.t) (es : list PlaylistTreeModelNode),
            nodeAt (fun x => _iconId x = icon) node es ->
            exists x, deref node (modifyChildren node style (modify node style es)) = Some x /\
              _iconId x = icon /\
              (attrStrikethrough (_attr x) = true /\
               attrColour (_attr x) = Some (unplayableColour n)) /\
              Forall (fun c => attrStrikethrough (_attr c) = true /\
                               attrColour (_attr c) = Some (unplayableColour n))
                     (_children x)).
  { intros icon es Hes.
    set (S := fun x : NodeFields =>
                _iconId x = icon /\ attrStrikethrough (_attr x) = true /\
                attrColour (_attr x) = Some (unplayableColour n)).
    set (C := fun c : NodeFields =>
                attrStrikethrough (_attr c) = true /\
                attrColour (_attr c) = Some (unplayableColour n)).
    assert (Hown : nodeAt S node (modify node style es)).
    { apply (@nodeAt_modify_there (fun x => _iconId x = icon));
        [apply keepsSelf_onItemAttr|intros x Hi; repeat split; exact Hi|exact Hes]. }
    assert (Hfinal : nodeAt S node (modifyChildren node style (modify node style es))).
    { apply (@nodeAt_modifyChildren S S);
        [apply keepsSelf_onItemAttr|intros x (Hi & _ & _); repeat split; exact Hi
        |auto|exact Hown]. }
    destruct Hfinal as (x & Hx & Hi & Hs & Hc).
    destruct Hown as (y & Hy & _).
    assert (Hchildren : exists x', deref node (modifyChildren node style (modify node style es))
                                   = Some x' /\ Forall C (_children x')).
    { apply (@deref_modifyChildren_there C node style _ y);
        [apply keepsSelf_onItemAttr|intros c; split; reflexivity|exact Hy]. }
    destruct Hchildren as (x' & Hx' & Hchildren).
    rewrite Hx in Hx'. injection Hx' as <-.
    exists x. auto. }
  assert (Hicon : forall (icon : PlaylistIconId.t) (es : list PlaylistTreeModelNode),
            nodeAt (fun _ => True) node es ->
            nodeAt (fun x => _iconId x = icon) node (modify node (SetIconId icon) es)).
  { intros icon es Hes.
    apply (@nodeAt_modify_there (fun _ => True)); [auto with store|reflexivity|exact Hes]. }
  assert (Hkeep : forall (icon : PlaylistIconId.t) (es : list PlaylistTreeModelNode),
            nodeAt (fun x => _iconId x = icon) node es -> nodeAt (fun _ => True) node es).
  { intros icon es (x & Hx & _). exists x. auto. }
  unfold normalIcon, type in *.
  destruct (_parent n) as [parent|] eqn:Hp; cbn [ItemType.eqb] in H.
  - destruct (Hparent2 parent eq_refl) as (p2 & Hp2 & Hd). rewrite Hp2, Hd in H.
    destruct (RomRequirement.eqb (romRequirement n) RomRequirement.None) eqn:Hrom;
      [|destruct (_playable n) eqn:Hplay]; cbn [negb] in H; injection H as <-; members.
    + destruct (Hicon (if Z.eqb (defaultSubsong n) parentDefault
                       then PlaylistIconId.DefaultSubsongIndicator
                       else PlaylistIconId.NoIcon) es2 Hany) as (x & Hx & Hi).
      exists x. repeat split; auto; discriminate.
    + destruct (Hicon (if Z.eqb (defaultSubsong n) parentDefault
                       then PlaylistIconId.DefaultSubsongIndicator
                       else PlaylistIconId.NoIcon) es2 Hany) as (x & Hx & Hi).
      exists x. repeat split; auto; discriminate.
    + destruct (Hchain _ _ (Hicon (if Z.eqb (defaultSubsong n) parentDefault
                                   then PlaylistIconId.DefaultSubsongIndicator
                                   else PlaylistIconId.NoIcon) es2 Hany))
        as (x & Hx & Hi & Hs & Hc).
      exists x. auto.
  - destruct (RomRequirement.eqb (romRequirement n) RomRequirement.None) eqn:Hrom;
      [|destruct (_playable n) eqn:Hplay]; cbn [negb] in H; injection H as <-; members.
    + destruct (Hicon PlaylistIconId.NoIcon es2 Hany) as (x & Hx & Hi).
      exists x. repeat split; auto; discriminate.
    + destruct (Hicon PlaylistIconId.ChipIcon _
                  (Hkeep _ _ (Hicon PlaylistIconId.NoIcon es2 Hany))) as (x & Hx & Hi).
      exists x. repeat split; auto; discriminate.
    + destruct (Hchain _ _ (Hicon PlaylistIconId.ChipIcon _
                  (Hkeep _ _ (Hicon PlaylistIconId.NoIcon es2 Hany))))
        as (x & Hx & Hi & Hs & Hc).
      exists x. auto.
Qed.

(** Song B needs the BASIC ROM and is flagged unplayable. *)
Lemma SetItemTag_Normal_styles_witness :
  exists n pl' n',
    deref 2 (entries songsABC) = Some n /\
    SetItemTag 2 ItemTag.Normal true songsABC = Some pl' /\
    deref 2 (entries pl') = Some n' /\
    _iconId n' = PlaylistIconId.ChipIcon /\
    attrStrikethrough (_attr n') = true /\
    attrColour (_attr n') = Some (ColourString "#054a80").
Proof.
  destruct (SetItemTag 2 ItemTag.Normal true songsABC) as [pl'|] eqn:Hcall;
    [|vm_compute in Hcall; discriminate].
  assert (Hnode : deref 2 (entries songsABC)
                  = Some (mkNode (newNode 2 None "B" "b.sid" 1 0 "Hubbard"
                                          RomRequirement.BasicRom false) []))
    by reflexivity.
  destruct (@SetItemTag_Normal_styles 2 true songsABC pl' _ 0%Z Hnode (or_introl eq_refl)
              ltac:(intros parent; discriminate) Hcall)
    as (n' & Hn' & Hicon & Hstyle).
  destruct (Hstyle eq_refl eq_refl) as ([Hstrike Hcolour] & _).
  do 3 eexists. split; [exact Hnode|]. split; [reflexivity|].
  split; [exact Hn'|]. split; [exact Hicon|]. split; [exact Hstrike|exact Hcolour].
Defined.

(** ** The scroll wheel *)

Lemma asInt_Some (z y : Z) : asInt z = Some y -> y = z.
Proof. unfold asInt. destruct (inInt z); congruence. Qed.

(** X15. The wheel handler leaves an event that is not on the vertical
    axis to the default handling. For a vertical one, whenever it is
    defined, it scrolls to the line [max 0 (v - (rotation / delta) * lines)]
    with the horizontal position unchanged: never to a negative line, and
    not at all, from a position that is not negative, while the rotation
    stays below one notch. With a zero delta it is undefined. *)
Theorem scroll_wheel (evt : wxMouseEvent) (scrollPosH scrollPosV : Z) (r : WheelHandling) :
  _OverrideScrollWheel evt scrollPosH scrollPosV = Some r ->
  (GetWheelAxis evt = wxMOUSE_WHEEL_HORIZONTAL /\ r = Skip) \/
  (GetWheelAxis evt = wxMOUSE_WHEEL_VERTICAL /\ GetWheelDelta evt <> 0%Z /\
   exists y,
     r = DoScroll scrollPosH y /\
     y = Z.max 0 (scrollPosV - Z.quot (GetWheelRotation evt) (GetWheelDelta evt)
                               * GetLinesPerAction evt) /\
     (0 <= y)%Z /\
     ((0 <= scrollPosV)%Z ->
      (Z.abs (GetWheelRotation evt) < Z.abs (GetWheelDelta evt))%Z ->
      y = scrollPosV)).
Proof.
  unfold _OverrideScrollWheel, andThen.
  destruct (GetWheelAxis evt); [|intros [= <-]; now left].
  destruct (Z.eqb (GetWheelDelta evt) 0) eqn:Hdelta; [discriminate|].
  apply Z.eqb_neq in Hdelta.
  destruct (asInt (Z.quot _ _)) as [notches|] eqn:Hnotches; [|discriminate].
  destruct (asInt (notches * _)) as [lines|] eqn:Hlines; [|discriminate].
  destruct (asInt (scrollPosV - lines)) as [target|] eqn:Htarget; [|discriminate].
  apply asInt_Some in Hnotches, Hlines, Htarget. subst notches lines target.
  intros [= <-]. right. split; [reflexivity|]. split; [exact Hdelta|].
  eexists. split; [reflexivity|]. split; [reflexivity|]. split; [lia|].
  intros Hv Hsmall.
  assert (Hq : Z.quot (GetWheelRotation evt) (GetWheelDelta evt) = 0%Z)
    by (apply Z.quot_small_iff; [exact Hdelta|exact Hsmall]).
  rewrite Hq. lia.
Qed.

Lemma scroll_wheel_witness :
  _OverrideScrollWheel (mkMouseEvent wxMOUSE_WHEEL_VERTICAL (-60) 120 3) 5 4
    = Some (DoScroll 5 4) /\
  _OverrideScrollWheel (mkMouseEvent wxMOUSE_WHEEL_VERTICAL 240 120 3) 5 4
    = Some (DoScroll 5 0) /\
  exists y, DoScroll 5 0 = DoScroll 5 y /\ (0 <= y)%Z /\
            y = Z.max 0 (4 - Z.quot 240 120 * 3).
Proof.
  split; [reflexivity|]. split; [reflexivity|].
  destruct (@scroll_wheel (mkMouseEvent wxMOUSE_WHEEL_VERTICAL 240 120 3) 5 4
              (DoScroll 5 0) eq_refl)
    as [[Haxis _]|(_ & _ & y & Hr & Hy & Hpos & _)]; [discriminate|].
  exists y. auto.
Defined.
